(** * Metadata search of the pexae Go SDK: Start, Get and the result decoder

    A shallow embedding of [metadata_search.go].  The Go code drives a native
    library through cgo; the native objects (status, request, future, result
    and match handles) live in a native heap that is part of the state, so
    that releasing a handle, leaking it or using it after release are all
    visible.  Go's [panic] and [defer] are part of the embedding. *)

From stdpp Require Import gmap strings list fin_maps.
From Stdlib Require Import ZArith.
From Equations Require Import Equations.
From Equations.Prop Require Import Logic.

(** ** Fixed-width integers

    [uint64(e)] and [int64(e)] are Go conversions.  Values are mathematical
    integers; the conversion wraps into the range of the target type. *)

Definition uint64 (z : Z) : Z := (z mod 2 ^ 64)%Z.
Definition int64 (z : Z) : Z := ((z + 2 ^ 63) mod 2 ^ 64 - 2 ^ 63)%Z.

Definition is_uint64 (z : Z) : Prop := (0 <= z < 2 ^ 64)%Z.
Definition is_int64 (z : Z) : Prop := (- 2 ^ 63 <= z < 2 ^ 63)%Z.

(** ** Go slices

    A slice is either the nil slice (what [var s []T] declares) or a non-nil
    slice with its elements.  [append] on a nil slice allocates, so its result
    is never nil; a slice nobody appended to stays nil. *)

Module slice.
Definition t (A : Type) : Type := option (list A).

Definition nil {A : Type} : t A := None.

Definition elems {A : Type} (s : t A) : list A :=
  match s with
  | None => []
  | Some l => l
  end.

Definition len {A : Type} (s : t A) : nat := length (elems s).

Definition is_nil {A : Type} (s : t A) : bool :=
  match s with
  | None => true
  | Some _ => false
  end.

Definition append {A : Type} (s : t A) (x : A) : t A := Some (elems s ++ [x]).
End slice.

(** ** Errors and panics *)

(** A Go [error] value: [errors.New] strings and the SDK's status errors. *)
Inductive error : Type :=
| errorString (s : string)
| StatusError (code : Z) (message : string).

(** What a goroutine panics with: the argument of an explicit [panic] call, or
    the runtime error of a nil pointer dereference. *)
Inductive panic_value : Type :=
| PanicString (s : string)
| NilDereference.

(** Ways of not finishing at all: undefined behaviour of the native library
    (a handle that is not live, or of the wrong kind), and [Lock] on a mutex
    that nobody will ever unlock. *)
Inductive stuck_reason : Type :=
| NativeUndefined
| Deadlock.

(** ** The native side *)

(** Native addresses.  A Go variable of type [*C.T] is an [option addr]:
    [None] is nil. *)
Definition addr : Type := nat.

Inductive CStatus : Type :=
| StatusOK
| StatusFailed (code : Z) (message : string).

Record CSegment : Type := mkCSegment {
  c_query_start : Z;
  c_query_end : Z;
  c_asset_start : Z;
  c_asset_end : Z
}.

Record CMatch : Type := mkCMatch {
  c_asset_id : Z;
  c_segments : list CSegment
}.

Record CResult : Type := mkCResult {
  c_lookup_id : Z;
  c_ugc_id : Z;
  c_matches : list CMatch
}.

Inductive CObject : Type :=
| OStatus (st : CStatus)
| ORequest (fingerprint : option addr)
| OFuture (lookup_id : Z)
| OResult (r : CResult)
| OMatch (m : CMatch).

Inductive kind : Type := KStatus | KRequest | KFuture | KResult | KMatch.

Global Instance kind_eq_dec : EqDecision kind.
Proof. solve_decision. Defined.

Definition kind_of (o : CObject) : kind :=
  match o with
  | OStatus _ => KStatus
  | ORequest _ => KRequest
  | OFuture _ => KFuture
  | OResult _ => KResult
  | OMatch _ => KMatch
  end.

(** The backend service behind the native library: what a submission
    answers (a status and the lookup identifier it assigns), given the session
    and the fingerprint handles, and what waiting for the search with a given
    lookup identifier answers (a status and the result). *)
Record Remote : Type := mkRemote {
  remote_start : option addr -> option addr -> CStatus * Z;
  remote_get : Z -> CStatus * CResult
}.

(** The state of the native library: the live objects, how many objects the
    allocator can hold at once, and the service. *)
Record World : Type := mkWorld {
  heap : gmap addr CObject;
  capacity : nat;
  remote : Remote
}.

Definition with_heap (f : gmap addr CObject -> gmap addr CObject) (w : World) : World :=
  {| heap := f (heap w); capacity := capacity w; remote := remote w |}.

(** ** Programs: state, panics and defer *)

Inductive outcome (S A : Type) : Type :=
| Returned (a : A) (s : S)
| Panicked (p : panic_value) (s : S)
| Stuck (why : stuck_reason).

Arguments Returned {S A} a s.
Arguments Panicked {S A} p s.
Arguments Stuck {S A} why.

Definition prog (S A : Type) : Type := S -> outcome S A.

Definition ret {S A : Type} (a : A) : prog S A := fun s => Returned a s.

Definition bind {S A B : Type} (m : prog S A) (k : A -> prog S B) : prog S B :=
  fun s =>
    match m s with
    | Returned a s' => k a s'
    | Panicked p s' => Panicked p s'
    | Stuck why => Stuck why
    end.

Definition panic {S A : Type} (p : panic_value) : prog S A := fun s => Panicked p s.

Definition undefined {S A : Type} : prog S A := fun _ => Stuck NativeUndefined.

Notation "'let*' x ':=' e 'in' k" := (bind e (fun x => k))
  (at level 10, x pattern, e at level 100, k at level 200).
Notation "e ';;' k" := (bind e (fun _ => k))
  (at level 100, k at level 200, right associativity).

(** [defer d body]: Go runs the deferred call [d] when the function leaves
    [body], by a return (the results are already evaluated) or by a panic
    (which goes on after [d]). *)
Definition defer {S A : Type} (d : prog S unit) (body : prog S A) : prog S A :=
  fun s =>
    match body s with
    | Returned a s1 =>
        match d s1 with
        | Returned _ s2 => Returned a s2
        | Panicked p s2 => Panicked p s2
        | Stuck why => Stuck why
        end
    | Panicked p s1 =>
        match d s1 with
        | Returned _ s2 => Panicked p s2
        | Panicked p' s2 => Panicked p' s2
        | Stuck why => Stuck why
        end
    | Stuck why => Stuck why
    end.

(** ** The native functions the Go code calls *)

(** [AE_*_New]: a fresh object, or NULL when the allocator is full. *)
Definition native_new (init : CObject) : prog World (option addr) :=
  fun w =>
    if decide (size (heap w) < capacity w) then
      let a := fresh (dom (heap w)) in
      Returned (Some a) (with_heap (insert a init) w)
    else Returned None w.

(** [AE_*_Delete(&p)]: releases the object [p] points to. *)
Definition native_delete (k : kind) (p : addr) : prog World unit :=
  fun w =>
    match heap w !! p with
    | Some o =>
        if decide (kind_of o = k) then Returned tt (with_heap (delete p) w)
        else Stuck NativeUndefined
    | None => Stuck NativeUndefined
    end.

Definition native_read (p : addr) : prog World CObject :=
  fun w =>
    match heap w !! p with
    | Some o => Returned o w
    | None => Stuck NativeUndefined
    end.

Definition native_write (p : addr) (o : CObject) : prog World unit :=
  fun w => Returned tt (with_heap (insert p o) w).

Definition read_status (p : addr) : prog World CStatus :=
  let* o := native_read p in
  match o with OStatus st => ret st | _ => undefined end.

Definition read_request (p : addr) : prog World (option addr) :=
  let* o := native_read p in
  match o with ORequest fp => ret fp | _ => undefined end.

Definition read_future (p : addr) : prog World Z :=
  let* o := native_read p in
  match o with OFuture lid => ret lid | _ => undefined end.

Definition read_result (p : addr) : prog World CResult :=
  let* o := native_read p in
  match o with OResult r => ret r | _ => undefined end.

Definition AE_Status_New : prog World (option addr) := native_new (OStatus StatusOK).
Definition AE_Status_Delete : addr -> prog World unit := native_delete KStatus.

Definition AE_MetadataSearchRequest_New : prog World (option addr) :=
  native_new (ORequest None).
Definition AE_MetadataSearchRequest_Delete : addr -> prog World unit :=
  native_delete KRequest.

Definition AE_MetadataSearchFuture_New : prog World (option addr) :=
  native_new (OFuture 0).
Definition AE_MetadataSearchFuture_Delete : addr -> prog World unit :=
  native_delete KFuture.

Definition AE_MetadataSearchResult_New : prog World (option addr) :=
  native_new (OResult (mkCResult 0 0 [])).
Definition AE_MetadataSearchResult_Delete : addr -> prog World unit :=
  native_delete KResult.

Definition AE_MetadataSearchMatch_New : prog World (option addr) :=
  native_new (OMatch (mkCMatch 0 [])).
Definition AE_MetadataSearchMatch_Delete : addr -> prog World unit :=
  native_delete KMatch.

Definition AE_MetadataSearchRequest_SetFingerprint
    (cRequest : addr) (ft : option addr) : prog World unit :=
  read_request cRequest;;
  native_write cRequest (ORequest ft).

(** The submission: one round trip to the service, which answers with a
    status and the lookup identifier stored in the future. *)
Definition AE_MetadataSearch_Start
    (session : option addr) (cRequest cFuture cStatus : addr) : prog World unit :=
  let* ft := read_request cRequest in
  read_future cFuture;;
  read_status cStatus;;
  fun w =>
    let '(st, lid) := remote_start (remote w) session ft in
    (native_write cFuture (OFuture lid);; native_write cStatus (OStatus st)) w.

Definition AE_MetadataSearchFuture_GetLookupID (cFuture : addr) : prog World Z :=
  read_future cFuture.

(** Waiting for the search: the service answers with a status and the
    result. *)
Definition AE_MetadataSearchFuture_Get
    (cFuture cResult cStatus : addr) : prog World unit :=
  let* lid := read_future cFuture in
  read_result cResult;;
  read_status cStatus;;
  fun w =>
    let '(st, r) := remote_get (remote w) lid in
    (native_write cResult (OResult r);; native_write cStatus (OStatus st)) w.

(** The two cursors, given on the objects that the handles point to.  Each
    call yields the element at the position and moves the position one
    further, or reports that there is no more ([None] is the C function
    returning false).  [NextMatch] writes the match into the scratch object
    [cMatch] of the caller, which reads it until the next call: here it is the
    value returned.  A position is a [C.size_t]; no sequence in memory is
    long enough to make it wrap, and it is a natural number here. *)
Definition AE_MetadataSearchResult_NextMatch
    (cResult : CResult) (pos : nat) : option (CMatch * nat) :=
  match c_matches cResult !! pos with
  | Some m => Some (m, S pos)
  | None => None
  end.

Definition AE_MetadataSearchMatch_NextSegment
    (cMatch : CMatch) (pos : nat) : option (CSegment * nat) :=
  match c_segments cMatch !! pos with
  | Some sg => Some (sg, S pos)
  | None => None
  end.

Definition AE_MetadataSearchMatch_GetAssetID (cMatch : CMatch) : Z := c_asset_id cMatch.
Definition AE_MetadataSearchResult_GetLookupID (cResult : CResult) : Z := c_lookup_id cResult.
Definition AE_MetadataSearchResult_GetUGCID (cResult : CResult) : Z := c_ugc_id cResult.

(** ** The Go data model *)

(** Modelled from the spec: the fingerprint type is declared in another file
    of the package; here it is an opaque native handle, [ft]. *)
Record Fingerprint : Type := mkFingerprint {
  ft : option addr
}.

Record MetadataSearchRequest : Type := mkMetadataSearchRequest {
  (* a nil [*Fingerprint] is [None] *)
  Fingerprint_ : option Fingerprint
}.

Record Segment : Type := mkSegment {
  QueryStart : Z;
  QueryEnd : Z;
  AssetStart : Z;
  AssetEnd : Z
}.

(** The elements of [Segments] and [Matches] are pointers to structs that
    the decoder has just allocated and that nothing writes to afterwards; they
    are never nil and are modelled by the structs. *)
Record MetadataSearchMatch : Type := mkMetadataSearchMatch {
  AssetID : Z;
  Segments : slice.t Segment
}.

Record MetadataSearchResult : Type := mkMetadataSearchResult {
  LookupID : Z;
  UGCID : Z;
  Matches : slice.t MetadataSearchMatch
}.

Record MetadataSearch : Type := mkMetadataSearch {
  session_c : option addr
}.

(** [m] is the mutex: [true] while some goroutine holds it. *)
Record MetadataSearchFuture : Type := mkMetadataSearchFuture {
  FutureLookupID : Z;
  c : option addr;
  m : bool
}.

(** The state [Get] runs in: the future it is called on, and the native
    side. *)
Record FutureState : Type := mkFutureState {
  fut : MetadataSearchFuture;
  world : World
}.

(** A native call made from a method of the future. *)
Definition native {A : Type} (p : prog World A) : prog FutureState A :=
  fun s =>
    match p (world s) with
    | Returned a w => Returned a {| fut := fut s; world := w |}
    | Panicked v w => Panicked v {| fut := fut s; world := w |}
    | Stuck why => Stuck why
    end.

(** Modelled from the spec: [statusToError] is defined in another file of
    the package; the spec has it as a pure function from the raw status to an
    error, nil for a status that is OK. *)
Definition statusToError (cStatus : addr) : prog World (option error) :=
  let* st := read_status cStatus in
  match st with
  | StatusOK => ret None
  | StatusFailed code message => ret (Some (StatusError code message))
  end.

(** ** The decoder *)

Definition out_of_memory : panic_value := PanicString "out of memory".

(** The inner loop of [processResult], lines 155 to 162. *)
Equations? segments_loop (cMatch : CMatch) (cSegmentsPos : nat)
    (segments : slice.t Segment) : slice.t Segment
    by wf (length (c_segments cMatch) - cSegmentsPos) lt :=
  segments_loop cMatch cSegmentsPos segments
    with inspect (AE_MetadataSearchMatch_NextSegment cMatch cSegmentsPos) => {
    | exist _ (Some (sg, pos')) _ :=
        segments_loop cMatch pos'
          (slice.append segments
             {| QueryStart := int64 (c_query_start sg);
                QueryEnd := int64 (c_query_end sg);
                AssetStart := int64 (c_asset_start sg);
                AssetEnd := int64 (c_asset_end sg) |});
    | exist _ None _ := segments }.
Proof.
  unfold AE_MetadataSearchMatch_NextSegment in e.
  destruct (c_segments cMatch !! cSegmentsPos) as [sg'|] eqn:Hsg; inversion e; subst.
  apply lookup_lt_Some in Hsg. lia.
Qed.

(** The outer loop of [processResult], lines 147 to 168. *)
Equations? matches_loop (cResult : CResult) (cMatchesPos : nat)
    (matches : slice.t MetadataSearchMatch) : slice.t MetadataSearchMatch
    by wf (length (c_matches cResult) - cMatchesPos) lt :=
  matches_loop cResult cMatchesPos matches
    with inspect (AE_MetadataSearchResult_NextMatch cResult cMatchesPos) => {
    | exist _ (Some (cMatch, pos')) _ :=
        matches_loop cResult pos'
          (slice.append matches
             {| AssetID := uint64 (AE_MetadataSearchMatch_GetAssetID cMatch);
                Segments := segments_loop cMatch 0 slice.nil |});
    | exist _ None _ := matches }.
Proof.
  unfold AE_MetadataSearchResult_NextMatch in e.
  destruct (c_matches cResult !! cMatchesPos) as [cm|] eqn:Hcm; inversion e; subst.
  apply lookup_lt_Some in Hcm. lia.
Qed.

Definition processResult (cResult : addr) : prog World MetadataSearchResult :=
  let* cMatch := AE_MetadataSearchMatch_New in
  match cMatch with
  | None => panic out_of_memory
  | Some cMatch =>
      defer (AE_MetadataSearchMatch_Delete cMatch) (
        let* r := read_result cResult in
        ret {| LookupID := uint64 (AE_MetadataSearchResult_GetLookupID r);
               UGCID := uint64 (AE_MetadataSearchResult_GetUGCID r);
               Matches := matches_loop r 0 slice.nil |})
  end.

(** ** Start *)

Definition Start (x : MetadataSearch) (req : option MetadataSearchRequest)
    : prog World (option MetadataSearchFuture * option error) :=
  let* cStatus := AE_Status_New in
  match cStatus with
  | None => panic out_of_memory
  | Some cStatus =>
  defer (AE_Status_Delete cStatus) (
    let* cRequest := AE_MetadataSearchRequest_New in
    match cRequest with
    | None => panic out_of_memory
    | Some cRequest =>
    defer (AE_MetadataSearchRequest_Delete cRequest) (
      let* cFuture := AE_MetadataSearchFuture_New in
      match cFuture with
      | None => panic out_of_memory
      | Some cFuture =>
          (* line 77: [req.Fingerprint.ft] dereferences both pointers *)
          match req with
          | None => panic NilDereference
          | Some req =>
          match Fingerprint_ req with
          | None => panic NilDereference
          | Some fp =>
              AE_MetadataSearchRequest_SetFingerprint cRequest (ft fp);;
              AE_MetadataSearch_Start (session_c x) cRequest cFuture cStatus;;
              let* err := statusToError cStatus in
              match err with
              | Some err =>
                  (* Delete the resource here to prevent leaking. *)
                  AE_MetadataSearchFuture_Delete cFuture;;
                  ret (None, Some err)
              | None =>
                  let* lid := AE_MetadataSearchFuture_GetLookupID cFuture in
                  ret (Some {| FutureLookupID := uint64 lid;
                               c := Some cFuture;
                               m := false |}, None)
              end
          end
          end
      end)
    end)
  end.

(** ** Get *)

(** [sync.Mutex] as far as [Get] uses it.  Alone, a goroutine that locks a
    held mutex waits for ever; [Unlock] is only ever called by the holder. *)
Definition Lock : prog FutureState unit :=
  fun s =>
    if m (fut s) then Stuck Deadlock
    else Returned tt
           {| fut := {| FutureLookupID := FutureLookupID (fut s);
                        c := c (fut s); m := true |};
              world := world s |}.

Definition Unlock : prog FutureState unit :=
  fun s =>
    Returned tt
      {| fut := {| FutureLookupID := FutureLookupID (fut s);
                   c := c (fut s); m := false |};
         world := world s |}.

Definition already_called : error := errorString "already called".

(** Reading [x.c]. *)
Definition get_c : prog FutureState (option addr) :=
  fun s => Returned (c (fut s)) s.

(** [x.c = nil] *)
Definition clear_c : prog FutureState unit :=
  fun s =>
    Returned tt
      {| fut := {| FutureLookupID := FutureLookupID (fut s);
                   c := None; m := m (fut s) |};
         world := world s |}.

Definition close : prog FutureState unit :=
  let* xc := get_c in
  match xc with
  | None => undefined
  | Some h => native (AE_MetadataSearchFuture_Delete h);; clear_c
  end.

(** Lines 111 to 129 of [Get]: the call that found the handle live. *)
Definition Get_live
    : prog FutureState (option MetadataSearchResult * option error) :=
  defer close (
    let* cStatus := native AE_Status_New in
    match cStatus with
    | None => panic out_of_memory
    | Some cStatus =>
    defer (native (AE_Status_Delete cStatus)) (
      let* cResult := native AE_MetadataSearchResult_New in
      match cResult with
      | None => panic out_of_memory
      | Some cResult =>
      defer (native (AE_MetadataSearchResult_Delete cResult)) (
        let* xc := get_c in
        match xc with
        | None => undefined
        | Some h =>
            native (AE_MetadataSearchFuture_Get h cResult cStatus);;
            let* err := native (statusToError cStatus) in
            match err with
            | Some err => ret (None, Some err)
            | None =>
                let* r := native (processResult cResult) in
                ret (Some r, None)
            end
        end)
      end)
    end).

(** Lines 108 to 129: [Get] with the mutex held. *)
Definition Get_locked
    : prog FutureState (option MetadataSearchResult * option error) :=
  let* xc := get_c in
  match xc with
  | None => ret (None, Some already_called)
  | Some _ => Get_live
  end.

Definition Get : prog FutureState (option MetadataSearchResult * option error) :=
  Lock;;
  defer Unlock Get_locked.

(** ** Notions used in the statements *)

(** What one segment and one match of the cursor decode to. *)
Definition decoded_segment (sg : CSegment) : Segment :=
  {| QueryStart := int64 (c_query_start sg);
     QueryEnd := int64 (c_query_end sg);
     AssetStart := int64 (c_asset_start sg);
     AssetEnd := int64 (c_asset_end sg) |}.

Definition decoded_match (cm : CMatch) : MetadataSearchMatch :=
  {| AssetID := uint64 (c_asset_id cm);
     Segments := segments_loop cm 0 slice.nil |}.

Definition decoded_result (r : CResult) : MetadataSearchResult :=
  {| LookupID := uint64 (c_lookup_id r);
     UGCID := uint64 (c_ugc_id r);
     Matches := matches_loop r 0 slice.nil |}.

(** The future once [close] has run: the handle field is nil. *)
Definition released (f : MetadataSearchFuture) : MetadataSearchFuture :=
  {| FutureLookupID := FutureLookupID f; c := None; m := m f |}.

Definition locked (f : MetadataSearchFuture) : MetadataSearchFuture :=
  {| FutureLookupID := FutureLookupID f; c := c f; m := true |}.

Definition unlocked (f : MetadataSearchFuture) : MetadataSearchFuture :=
  {| FutureLookupID := FutureLookupID f; c := c f; m := false |}.

(** The future after the call that consumed it. *)
Definition consumed (f : MetadataSearchFuture) : MetadataSearchFuture :=
  {| FutureLookupID := FutureLookupID f; c := None; m := false |}.

(** The value a returning [Get] gives is a result and no error, or an error
    and no result. *)
Definition result_xor_error (v : option MetadataSearchResult * option error) : Prop :=
  (is_Some v.1 /\ v.2 = None) \/ (v.1 = None /\ is_Some v.2).

(** When [Get] is sure to return: the mutex is free, and the handle is nil
    or is a live future and the allocator has room for the three objects of
    the call. *)
Definition Get_can_run (s : FutureState) : Prop :=
  m (fut s) = false /\
  (c (fut s) = None \/
   exists h lid,
     c (fut s) = Some h /\ heap (world s) !! h = Some (OFuture lid) /\
     size (heap (world s)) + 2 < capacity (world s)).

(** The service names the search in its result as it named it at
    submission. *)
Definition same_lookup_id (rm : Remote) (session fp : option addr) : Prop :=
  c_lookup_id (remote_get rm (remote_start rm session fp).2).2 =
  (remote_start rm session fp).2.

(** A sequence that is empty and yet not nil. *)
Definition empty_but_not_nil {A : Type} (s : slice.t A) : Prop :=
  slice.len s = 0 /\ slice.is_nil s = false.

(** What the caller can see of a decoded match: its asset identifier and its
    segments, in order. *)
Definition match_view (gm : MetadataSearchMatch) : Z * list Segment :=
  (AssetID gm, slice.elems (Segments gm)).

(** ** Goroutines calling Get on one future *)

(** What a caller of [Get] receives: the two return values, or a panic. *)
Inductive result : Type :=
| Ret (v : option MetadataSearchResult * option error)
| Panic (p : panic_value).

Definition AlreadyConsumed : result := Ret (None, Some already_called).

(** Where a goroutine is in [Get], which is [Lock], then [Get_locked], then
    the deferred [Unlock]: before [x.m.Lock()] (line 105); holding the mutex,
    before lines 108 to 129; holding it with its results evaluated and the
    deferred [Unlock] still to run; back in its caller. *)
Inductive thread : Type :=
| AtLock
| Holding
| AtUnlock (o : result)
| Done (o : result).

(** One step of a goroutine on the shared future and native side: one of the
    three parts of [Get].  [Lock] on a held mutex has no step: the goroutine
    waits.  What a goroutine receives is what [Get_locked] gives it. *)
Definition thread_step (t : thread) (s : FutureState) : option (thread * FutureState) :=
  match t with
  | AtLock =>
      match Lock s with
      | Returned _ s' => Some (Holding, s')
      | _ => None
      end
  | Holding =>
      match Get_locked s with
      | Returned v s' => Some (AtUnlock (Ret v), s')
      | Panicked p s' => Some (AtUnlock (Panic p), s')
      | Stuck _ => None
      end
  | AtUnlock o =>
      match Unlock s with
      | Returned _ s' => Some (Done o, s')
      | _ => None
      end
  | Done _ => None
  end.

(** A goroutine running alone, for at most [k] steps: where it ends, or
    [None] when it cannot go on before it is done. *)
Fixpoint run_alone (k : nat) (t : thread) (s : FutureState)
    : option (thread * FutureState) :=
  match k, t with
  | 0, _ | _, Done _ => Some (t, s)
  | S k, _ =>
      match thread_step t s with
      | Some (t', s') => run_alone k t' s'
      | None => None
      end
  end.

Definition config : Type := list thread * FutureState.

(** Any goroutine that has a step may take it next. *)
Inductive step : config -> config -> Prop :=
| step_thread ts s i t t' s' :
    ts !! i = Some t ->
    thread_step t s = Some (t', s') ->
    step (ts, s) (<[i:=t']> ts, s').

Definition in_critical_section (t : thread) : Prop :=
  match t with
  | Holding | AtUnlock _ => True
  | AtLock | Done _ => False
  end.

(** A goroutine that runs alone does what [Get] does: its three steps are
    the three parts of [Get], with the outcome and the state of [Get], and it
    has no way on exactly when [Get] does not finish. *)
Definition goroutine_is_Get (s : FutureState) : Prop :=
  match Get s with
  | Returned v s' => run_alone 3 AtLock s = Some (Done (Ret v), s')
  | Panicked p s' => run_alone 3 AtLock s = Some (Done (Panic p), s')
  | Stuck _ => run_alone 3 AtLock s = None
  end.

Definition is_done (t : thread) : Prop :=
  match t with
  | Done _ => True
  | _ => False
  end.

Global Instance is_done_dec t : Decision (is_done t).
Proof. destruct t; simpl; apply _. Defined.

Definition outcome_as (o : result) (s : FutureState)
    : outcome FutureState (option MetadataSearchResult * option error) :=
  match o with
  | Ret v => Returned v s
  | Panic p => Panicked p s
  end.

(** What the call that consumes the future can give when the allocator has
    room: the decoded result, or the error of the fetch. *)
Definition result_or_fetch_error (o : result) : Prop :=
  (exists r, o = Ret (Some (decoded_result r), None)) \/
  (exists code message, o = Ret (None, Some (StatusError code message))).

(** The shared state as the goroutines can make it, for the future [f]: the
    handle field and the mutex change, the lookup identifier does not. *)
Definition shared (f : MetadataSearchFuture)
    (xc : option addr) (held : bool) (w' : World) : FutureState :=
  {| fut := {| FutureLookupID := FutureLookupID f; c := xc; m := held |};
     world := w' |}.

(** A goroutine outside the critical section once the future is consumed:
    it has not locked yet, or it is back with "already called". *)
Definition waiting_or_late (t : thread) : Prop :=
  t = AtLock \/ t = Done AlreadyConsumed.

(** The configurations that goroutines calling [Get] on the future [f], live
    at [h] in the world [w], can be in; [first] is what the goroutine that
    consumes the future receives. *)
Inductive reachable_shape (f : MetadataSearchFuture) (w : World) (h : addr)
    (first : result) : config -> Prop :=
| shape_fresh ts :
    (forall j t, ts !! j = Some t -> t = AtLock) ->
    reachable_shape f w h first (ts, shared f (Some h) false w)
| shape_first ts i :
    ts !! i = Some Holding ->
    (forall j t', j <> i -> ts !! j = Some t' -> t' = AtLock) ->
    reachable_shape f w h first (ts, shared f (Some h) true w)
| shape_winner_unlocking ts k :
    ts !! k = Some (AtUnlock first) ->
    (forall j t', j <> k -> ts !! j = Some t' -> waiting_or_late t') ->
    reachable_shape f w h first (ts, shared f None true (with_heap (delete h) w))
| shape_consumed ts k :
    ts !! k = Some (Done first) ->
    (forall j t', j <> k -> ts !! j = Some t' -> waiting_or_late t') ->
    reachable_shape f w h first (ts, shared f None false (with_heap (delete h) w))
| shape_late ts k i t :
    k <> i ->
    ts !! k = Some (Done first) ->
    ts !! i = Some t -> t = Holding \/ t = AtUnlock AlreadyConsumed ->
    (forall j t', j <> k -> j <> i -> ts !! j = Some t' -> waiting_or_late t') ->
    reachable_shape f w h first (ts, shared f None true (with_heap (delete h) w)).

(** The steps a goroutine still has before it is back in its caller, at
    most. *)
Definition steps_left (t : thread) : nat :=
  match t with
  | AtLock => 3
  | Holding => 2
  | AtUnlock _ => 1
  | Done _ => 0
  end.

Fixpoint work (ts : list thread) : nat :=
  match ts with
  | [] => 0
  | t :: ts => steps_left t + work ts
  end.

(** Running the goroutines in a given order: [sched] names the goroutine of
    each step. *)
Fixpoint run_schedule (sched : list nat) (cfg : config) : option config :=
  match sched with
  | [] => Some cfg
  | i :: sched =>
      match cfg.1 !! i with
      | Some t =>
          match thread_step t cfg.2 with
          | Some (t', s') => run_schedule sched (<[i:=t']> cfg.1, s')
          | None => None
          end
      | None => None
      end
  end.

(** ** Example data *)

(** A service that accepts every submission with lookup identifier 7 and
    completes every search with two matches, the second without segments. *)
Definition example_result (lid : Z) : CResult :=
  mkCResult lid 9
    [mkCMatch 5 [mkCSegment 10 20 100 110; mkCSegment 30 40 120 130];
     mkCMatch 6 []].

Definition example_remote : Remote :=
  {| remote_start := fun _ _ => (StatusOK, 7%Z);
     remote_get := fun lid => (StatusOK, example_result lid) |}.

(** A service that refuses submissions and fails searches. *)
Definition failing_remote : Remote :=
  {| remote_start := fun _ _ => (StatusFailed 14 "unavailable", 0%Z);
     remote_get := fun _ => (StatusFailed 4 "deadline exceeded", mkCResult 0 0 []) |}.

Definition example_session : MetadataSearch := {| session_c := Some 100 |}.

Definition example_fingerprint : Fingerprint := {| ft := Some 200 |}.

Definition example_request : MetadataSearchRequest :=
  {| Fingerprint_ := Some example_fingerprint |}.

Definition nil_fingerprint_request : MetadataSearchRequest :=
  {| Fingerprint_ := None |}.

Definition empty_world (r : Remote) : World :=
  {| heap := ∅; capacity := 8; remote := r |}.

(** A world holding one result object, at address 0. *)
Definition result_world (r : CResult) : World :=
  {| heap := {[ 0 := OResult r ]}; capacity := 8; remote := example_remote |}.

(** A live future with lookup identifier 7, at the address [Start] gives it
    in an empty world. *)
Definition live_future : MetadataSearchFuture :=
  {| FutureLookupID := 7; c := Some 2; m := false |}.

Definition live_state (r : Remote) : FutureState :=
  {| fut := live_future;
     world := {| heap := {[ 2 := OFuture 7 ]}; capacity := 8; remote := r |} |}.

(** Three goroutines that have all returned from [Get] on [live_future]: the
    second one was first. *)
Definition example_all_done : list thread :=
  [Done AlreadyConsumed;
   Done (Ret (Some (decoded_result (example_result 7)), None));
   Done AlreadyConsumed].

Definition example_consumed_state : FutureState :=
  {| fut := consumed live_future;
     world := with_heap (delete 2) (world (live_state example_remote)) |}.

(** ** Further notions and example data *)

(** A world with nothing allocated and room for [n] objects. *)
Definition tight_world (n : nat) (r : Remote) : World :=
  {| heap := ∅; capacity := n; remote := r |}.

(** A live future in a world whose allocator is full. *)
Definition full_live_state : FutureState :=
  {| fut := live_future;
     world := {| heap := {[ 2 := OFuture 7 ]}; capacity := 1;
                 remote := example_remote |} |}.

(** The native side after two accepted submissions. *)
Definition example_two_futures : World :=
  {| heap := <[5 := OFuture 7]> {[ 2 := OFuture 7 ]}; capacity := 8;
     remote := example_remote |}.

(** A world holding one result object and with no room for more. *)
Definition full_result_world : World :=
  {| heap := {[ 0 := OResult (example_result 7) ]}; capacity := 1;
     remote := example_remote |}.

(** The same outcome, in a state transformed by [g]. *)
Definition outcome_map {S A : Type} (g : S -> S) (o : outcome S A) : outcome S A :=
  match o with
  | Returned a s => Returned a (g s)
  | Panicked p s => Panicked p (g s)
  | Stuck why => Stuck why
  end.

(** [p] does the same whether or not [g] has changed the state before:
    it neither reads nor writes what [g] changes. *)
Definition commutes {S A : Type} (g : S -> S) (p : prog S A) : Prop :=
  forall s, p (g s) = outcome_map g (p s).

(** The native side with another service behind it. *)
Definition with_remote (rm : Remote) (w : World) : World :=
  {| heap := heap w; capacity := capacity w; remote := rm |}.

(** The native side with a service that completes searches as [get] says,
    and one that answers submissions as [start] says. *)
Definition with_remote_get (get : Z -> CStatus * CResult) (w : World) : World :=
  with_remote {| remote_start := remote_start (remote w); remote_get := get |} w.

Definition with_remote_start
    (start : option addr -> option addr -> CStatus * Z) (w : World) : World :=
  with_remote {| remote_start := start; remote_get := remote_get (remote w) |} w.

Definition on_world (g : World -> World) (s : FutureState) : FutureState :=
  {| fut := fut s; world := g (world s) |}.

(** The configurations that goroutines calling [Get] on the future [f] can
    be in when [f] was consumed before they started: the mutex is free and
    nobody is between [Lock] and [Unlock], or one goroutine is. *)
Inductive consumed_shape (f : MetadataSearchFuture) (w : World) : config -> Prop :=
| consumed_free ts :
    (forall j t, ts !! j = Some t -> waiting_or_late t) ->
    consumed_shape f w (ts, shared f None false w)
| consumed_held ts i t :
    ts !! i = Some t -> t = Holding \/ t = AtUnlock AlreadyConsumed ->
    (forall j t', j <> i -> ts !! j = Some t' -> waiting_or_late t') ->
    consumed_shape f w (ts, shared f None true w).

(** Two goroutines that have both returned from [Get] on a future that was
    consumed before they called. *)
Definition example_late_done : list thread :=
  [Done AlreadyConsumed; Done AlreadyConsumed].

Definition example_late_state : FutureState :=
  {| fut := consumed live_future; world := empty_world example_remote |}.

(** [Start] with its receiver as the pointer it is in Go: [None] is a nil
    [*MetadataSearch].  The receiver is first dereferenced at line 79, for
    [x.c], after the three allocations and the call of line 77.  On a
    receiver that is not nil this is [Start]. *)
Definition Start_on (x : option MetadataSearch) (req : option MetadataSearchRequest)
    : prog World (option MetadataSearchFuture * option error) :=
  let* cStatus := AE_Status_New in
  match cStatus with
  | None => panic out_of_memory
  | Some cStatus =>
  defer (AE_Status_Delete cStatus) (
    let* cRequest := AE_MetadataSearchRequest_New in
    match cRequest with
    | None => panic out_of_memory
    | Some cRequest =>
    defer (AE_MetadataSearchRequest_Delete cRequest) (
      let* cFuture := AE_MetadataSearchFuture_New in
      match cFuture with
      | None => panic out_of_memory
      | Some cFuture =>
          (* line 77: [req.Fingerprint.ft] dereferences both pointers *)
          match req with
          | None => panic NilDereference
          | Some req =>
          match Fingerprint_ req with
          | None => panic NilDereference
          | Some fp =>
              AE_MetadataSearchRequest_SetFingerprint cRequest (ft fp);;
              (* line 79: [x.c] dereferences the receiver *)
              match x with
              | None => panic NilDereference
              | Some x =>
                  AE_MetadataSearch_Start (session_c x) cRequest cFuture cStatus;;
                  let* err := statusToError cStatus in
                  match err with
                  | Some err =>
                      (* Delete the resource here to prevent leaking. *)
                      AE_MetadataSearchFuture_Delete cFuture;;
                      ret (None, Some err)
                  | None =>
                      let* lid := AE_MetadataSearchFuture_GetLookupID cFuture in
                      ret (Some {| FutureLookupID := uint64 lid;
                                   c := Some cFuture;
                                   m := false |}, None)
                  end
              end
          end
          end
      end)
    end)
  end.

(** * Properties *)

(** ** The decoder's loops *)

Lemma segments_loop_step cm pos sg acc :
  c_segments cm !! pos = Some sg ->
  segments_loop cm pos acc =
  segments_loop cm (S pos) (slice.append acc (decoded_segment sg)).
Proof.
  intros Hsg. rewrite segments_loop_equation_1.
  destruct (inspect (AE_MetadataSearchMatch_NextSegment cm pos)) as [[[sg' pos']|] e];
    pose proof e as e'; unfold AE_MetadataSearchMatch_NextSegment in e'; rewrite Hsg in e';
    inversion e'; subst; reflexivity.
Qed.

Lemma segments_loop_done cm pos acc :
  c_segments cm !! pos = None -> segments_loop cm pos acc = acc.
Proof.
  intros Hsg. rewrite segments_loop_equation_1.
  destruct (inspect (AE_MetadataSearchMatch_NextSegment cm pos)) as [[[sg' pos']|] e];
    pose proof e as e'; unfold AE_MetadataSearchMatch_NextSegment in e'; rewrite Hsg in e';
    inversion e'; subst; reflexivity.
Qed.

Lemma matches_loop_step r pos cm acc :
  c_matches r !! pos = Some cm ->
  matches_loop r pos acc =
  matches_loop r (S pos) (slice.append acc (decoded_match cm)).
Proof.
  intros Hm. rewrite matches_loop_equation_1.
  destruct (inspect (AE_MetadataSearchResult_NextMatch r pos)) as [[[cm' pos']|] e];
    pose proof e as e'; unfold AE_MetadataSearchResult_NextMatch in e'; rewrite Hm in e';
    inversion e'; subst; reflexivity.
Qed.

Lemma matches_loop_done r pos acc :
  c_matches r !! pos = None -> matches_loop r pos acc = acc.
Proof.
  intros Hm. rewrite matches_loop_equation_1.
  destruct (inspect (AE_MetadataSearchResult_NextMatch r pos)) as [[[cm' pos']|] e];
    pose proof e as e'; unfold AE_MetadataSearchResult_NextMatch in e'; rewrite Hm in e';
    inversion e'; subst; reflexivity.
Qed.

(** Both loops append, in cursor order, what is left from the position on;
    a loop that finds nothing left gives back the slice it was given. *)
Lemma segments_loop_drop cm (rest : list CSegment) :
  forall pos acc,
    drop pos (c_segments cm) = rest ->
    segments_loop cm pos acc =
    match rest with
    | [] => acc
    | _ :: _ => Some (slice.elems acc ++ map decoded_segment rest)
    end.
Proof.
  induction rest as [|sg rest IH]; intros pos acc Hdrop.
  - apply segments_loop_done. apply lookup_ge_None.
    apply drop_nil_inv in Hdrop. lia.
  - assert (Hsg : c_segments cm !! pos = Some sg).
    { pose proof (lookup_drop (c_segments cm) pos 0) as Hl.
      rewrite Hdrop, Nat.add_0_r in Hl. symmetry. exact Hl. }
    rewrite (segments_loop_step _ _ _ _ Hsg).
    assert (Hrest : drop (S pos) (c_segments cm) = rest).
    { pose proof (drop_drop (c_segments cm) 1 pos) as Hd.
      rewrite Hdrop, Nat.add_1_r in Hd. symmetry. exact Hd. }
    rewrite (IH _ _ Hrest). simpl.
    destruct rest; [reflexivity|].
    rewrite <- app_assoc. reflexivity.
Qed.

Lemma matches_loop_drop r (rest : list CMatch) :
  forall pos acc,
    drop pos (c_matches r) = rest ->
    matches_loop r pos acc =
    match rest with
    | [] => acc
    | _ :: _ => Some (slice.elems acc ++ map decoded_match rest)
    end.
Proof.
  induction rest as [|cm rest IH]; intros pos acc Hdrop.
  - apply matches_loop_done. apply lookup_ge_None.
    apply drop_nil_inv in Hdrop. lia.
  - assert (Hm : c_matches r !! pos = Some cm).
    { pose proof (lookup_drop (c_matches r) pos 0) as Hl.
      rewrite Hdrop, Nat.add_0_r in Hl. symmetry. exact Hl. }
    rewrite (matches_loop_step _ _ _ _ Hm).
    assert (Hrest : drop (S pos) (c_matches r) = rest).
    { pose proof (drop_drop (c_matches r) 1 pos) as Hd.
      rewrite Hdrop, Nat.add_1_r in Hd. symmetry. exact Hd. }
    rewrite (IH _ _ Hrest). simpl.
    destruct rest; [reflexivity|].
    rewrite <- app_assoc. reflexivity.
Qed.

Lemma segments_loop_elems cm :
  slice.elems (segments_loop cm 0 slice.nil) = map decoded_segment (c_segments cm).
Proof.
  rewrite (segments_loop_drop cm (c_segments cm) 0 slice.nil eq_refl).
  destruct (c_segments cm); reflexivity.
Qed.

Lemma matches_loop_elems r :
  slice.elems (matches_loop r 0 slice.nil) = map decoded_match (c_matches r).
Proof.
  rewrite (matches_loop_drop r (c_matches r) 0 slice.nil eq_refl).
  destruct (c_matches r); reflexivity.
Qed.

(** ** Running programs step by step *)

Section stepping.
Context {S A B : Type}.

Lemma bind_returned (p : prog S A) (k : A -> prog S B) s a s1 o :
  p s = Returned a s1 -> k a s1 = o -> bind p k s = o.
Proof. intros Hp Hk. unfold bind. rewrite Hp. exact Hk. Qed.

Lemma bind_panicked (p : prog S A) (k : A -> prog S B) s v s1 :
  p s = Panicked v s1 -> bind p k s = Panicked v s1.
Proof. intros Hp. unfold bind. rewrite Hp. reflexivity. Qed.

Lemma defer_returned (d : prog S unit) (body : prog S A) s a s1 s2 :
  body s = Returned a s1 -> d s1 = Returned tt s2 ->
  defer d body s = Returned a s2.
Proof. intros Hb Hd. unfold defer. rewrite Hb, Hd. reflexivity. Qed.

Lemma defer_panicked (d : prog S unit) (body : prog S A) s v s1 s2 :
  body s = Panicked v s1 -> d s1 = Returned tt s2 ->
  defer d body s = Panicked v s2.
Proof. intros Hb Hd. unfold defer. rewrite Hb, Hd. reflexivity. Qed.

(** What comes out of a [bind] or a [defer] came out of its parts. *)
Lemma bind_returned_inv (p : prog S A) (k : A -> prog S B) s b s2 :
  bind p k s = Returned b s2 ->
  exists a s1, p s = Returned a s1 /\ k a s1 = Returned b s2.
Proof.
  unfold bind. destruct (p s) as [a s1|v s1|why]; intros H; try discriminate.
  exists a, s1. auto.
Qed.

Lemma defer_returned_inv (d : prog S unit) (body : prog S A) s a s2 :
  defer d body s = Returned a s2 ->
  exists s1, body s = Returned a s1 /\ d s1 = Returned tt s2.
Proof.
  unfold defer. destruct (body s) as [a' s1|v s1|why]; try discriminate.
  - destruct (d s1) as [[] s2'|v s2'|why] eqn:Hd; intros H; inversion H; subst.
    exists s1. auto.
  - destruct (d s1) as [[] s2'|v' s2'|why]; discriminate.
Qed.

End stepping.

Lemma returned_in {S A : Type} (o : outcome S A) a s s' :
  o = Returned a s -> s = s' -> o = Returned a s'.
Proof. intros -> ->. reflexivity. Qed.

Lemma panicked_in {S A : Type} (o : outcome S A) v s s' :
  o = Panicked v s -> s = s' -> o = Panicked v s'.
Proof. intros -> ->. reflexivity. Qed.

(** ** The native functions on a heap that is known *)

Lemma world_eq (w w' : World) :
  heap w = heap w' -> capacity w = capacity w' -> remote w = remote w' -> w = w'.
Proof. destruct w, w'. simpl. intros -> -> ->. reflexivity. Qed.

Lemma native_new_ok init w :
  size (heap w) < capacity w ->
  exists a,
    heap w !! a = None /\
    native_new init w = Returned (Some a) (with_heap (insert a init) w).
Proof.
  intros Hroom. exists (fresh (dom (heap w))). split.
  - apply not_elem_of_dom. apply is_fresh.
  - unfold native_new. rewrite decide_True by exact Hroom. reflexivity.
Qed.

Lemma native_new_full init w :
  capacity w <= size (heap w) -> native_new init w = Returned None w.
Proof.
  intros Hfull. unfold native_new. rewrite decide_False by lia. reflexivity.
Qed.

Lemma native_delete_ok k p o w :
  heap w !! p = Some o -> kind_of o = k ->
  native_delete k p w = Returned tt (with_heap (delete p) w).
Proof.
  intros Hp Hk. unfold native_delete. rewrite Hp, decide_True by exact Hk.
  reflexivity.
Qed.

Lemma read_status_ok p st w :
  heap w !! p = Some (OStatus st) -> read_status p w = Returned st w.
Proof. intros Hp. unfold read_status, bind, native_read. rewrite Hp. reflexivity. Qed.

Lemma read_request_ok p fp w :
  heap w !! p = Some (ORequest fp) -> read_request p w = Returned fp w.
Proof. intros Hp. unfold read_request, bind, native_read. rewrite Hp. reflexivity. Qed.

Lemma read_future_ok p lid w :
  heap w !! p = Some (OFuture lid) -> read_future p w = Returned lid w.
Proof. intros Hp. unfold read_future, bind, native_read. rewrite Hp. reflexivity. Qed.

Lemma read_result_ok p r w :
  heap w !! p = Some (OResult r) -> read_result p w = Returned r w.
Proof. intros Hp. unfold read_result, bind, native_read. rewrite Hp. reflexivity. Qed.

Lemma SetFingerprint_ok cRequest fp0 fp w :
  heap w !! cRequest = Some (ORequest fp0) ->
  AE_MetadataSearchRequest_SetFingerprint cRequest fp w =
  Returned tt (with_heap (insert cRequest (ORequest fp)) w).
Proof.
  intros Hp. unfold AE_MetadataSearchRequest_SetFingerprint.
  eapply bind_returned; [apply (read_request_ok _ _ _ Hp)|]. reflexivity.
Qed.

Lemma native_Start_ok session cRequest cFuture cStatus fp lid0 st0 w :
  heap w !! cRequest = Some (ORequest fp) ->
  heap w !! cFuture = Some (OFuture lid0) ->
  heap w !! cStatus = Some (OStatus st0) ->
  AE_MetadataSearch_Start session cRequest cFuture cStatus w =
  Returned tt
    (with_heap (insert cStatus (OStatus (remote_start (remote w) session fp).1))
       (with_heap (insert cFuture (OFuture (remote_start (remote w) session fp).2)) w)).
Proof.
  intros Hr Hf Hs. unfold AE_MetadataSearch_Start.
  eapply bind_returned; [apply (read_request_ok _ _ _ Hr)|].
  eapply bind_returned; [apply (read_future_ok _ _ _ Hf)|].
  eapply bind_returned; [apply (read_status_ok _ _ _ Hs)|].
  destruct (remote_start (remote w) session fp) as [st lid]. reflexivity.
Qed.

Lemma native_Get_ok cFuture cResult cStatus lid r0 st0 w :
  heap w !! cFuture = Some (OFuture lid) ->
  heap w !! cResult = Some (OResult r0) ->
  heap w !! cStatus = Some (OStatus st0) ->
  AE_MetadataSearchFuture_Get cFuture cResult cStatus w =
  Returned tt
    (with_heap (insert cStatus (OStatus (remote_get (remote w) lid).1))
       (with_heap (insert cResult (OResult (remote_get (remote w) lid).2)) w)).
Proof.
  intros Hf Hr Hs. unfold AE_MetadataSearchFuture_Get.
  eapply bind_returned; [apply (read_future_ok _ _ _ Hf)|].
  eapply bind_returned; [apply (read_result_ok _ _ _ Hr)|].
  eapply bind_returned; [apply (read_status_ok _ _ _ Hs)|].
  destruct (remote_get (remote w) lid) as [st r]. reflexivity.
Qed.

Lemma statusToError_ok cStatus st w :
  heap w !! cStatus = Some (OStatus st) ->
  statusToError cStatus w =
  Returned match st with
           | StatusOK => None
           | StatusFailed code message => Some (StatusError code message)
           end w.
Proof.
  intros Hs. unfold statusToError.
  eapply bind_returned; [apply (read_status_ok _ _ _ Hs)|].
  destruct st; reflexivity.
Qed.

(** Heap lookups through the insertions and deletions a run has made. *)
Ltac heap_lookup :=
  simpl;
  repeat first
    [ rewrite lookup_insert_eq
    | rewrite lookup_insert_ne by congruence
    | rewrite lookup_delete_ne by congruence ];
  try reflexivity; try eassumption.

(** A heap that got back every object it was lent is the heap it was. *)
Ltac heap_restore :=
  apply map_eq; intros ?; simpl;
  repeat first
    [ rewrite lookup_delete
    | rewrite lookup_insert ];
  repeat case_decide; subst; try congruence; try reflexivity.

(** ** What the decoder does *)

Lemma processResult_ok cResult r w :
  size (heap w) < capacity w ->
  heap w !! cResult = Some (OResult r) ->
  processResult cResult w = Returned (decoded_result r) w.
Proof.
  intros Hroom Hr.
  destruct (native_new_ok (OMatch (mkCMatch 0 [])) w Hroom) as (a & Ha & Hnew).
  unfold processResult.
  eapply bind_returned; [exact Hnew|]. simpl.
  eapply returned_in.
  - eapply defer_returned.
    + eapply bind_returned; [apply (read_result_ok _ r); heap_lookup|].
      reflexivity.
    + eapply native_delete_ok; [heap_lookup|reflexivity].
  - apply world_eq; try reflexivity. heap_restore.
Qed.

Lemma processResult_full cResult w :
  capacity w <= size (heap w) ->
  processResult cResult w = Panicked out_of_memory w.
Proof.
  intros Hfull. unfold processResult.
  eapply bind_returned; [apply native_new_full; exact Hfull|]. reflexivity.
Qed.

(** ** What Start does, case by case *)

Lemma size_with_insert a o w :
  heap w !! a = None -> size (heap (with_heap (insert a o) w)) = S (size (heap w)).
Proof. intros Ha. simpl. apply map_size_insert_None. exact Ha. Qed.

Lemma fresh_after_insert a b o w :
  heap (with_heap (insert a o) w) !! b = None -> heap w !! b = None /\ a <> b.
Proof. simpl. intros Hb. apply lookup_insert_None in Hb. exact Hb. Qed.

(** The allocator is full from the start: the status cannot be allocated. *)
Lemma Start_full_status x req w :
  capacity w <= size (heap w) ->
  Start x req w = Panicked out_of_memory w.
Proof.
  intros Hfull. unfold Start.
  eapply bind_returned; [apply native_new_full; exact Hfull|]. reflexivity.
Qed.

(** Room for the status only: it is released again by its deferred call. *)
Lemma Start_full_request x req w :
  size (heap w) < capacity w -> capacity w <= size (heap w) + 1 ->
  Start x req w = Panicked out_of_memory w.
Proof.
  intros Hroom Hfull.
  destruct (native_new_ok (OStatus StatusOK) w Hroom) as (a1 & Ha1 & Hnew1).
  pose proof (size_with_insert a1 (OStatus StatusOK) w Ha1) as Hsz1.
  unfold Start.
  eapply bind_returned; [exact Hnew1|]. simpl.
  eapply panicked_in.
  - eapply defer_panicked.
    + eapply bind_returned; [apply native_new_full; simpl in *; lia|]. reflexivity.
    + eapply native_delete_ok; [heap_lookup|reflexivity].
  - apply world_eq; try reflexivity. heap_restore.
Qed.

(** Room for the status and the request only. *)
Lemma Start_full_future x req w :
  size (heap w) + 1 < capacity w -> capacity w <= size (heap w) + 2 ->
  Start x req w = Panicked out_of_memory w.
Proof.
  intros Hroom Hfull.
  destruct (native_new_ok (OStatus StatusOK) w) as (a1 & Ha1 & Hnew1); [lia|].
  pose proof (size_with_insert a1 (OStatus StatusOK) w Ha1) as Hsz1.
  destruct (native_new_ok (ORequest None) (with_heap (insert a1 (OStatus StatusOK)) w))
    as (a2 & Ha2 & Hnew2); [simpl in *; lia|].
  pose proof (size_with_insert a2 (ORequest None) _ Ha2) as Hsz2.
  apply fresh_after_insert in Ha2 as [Ha2 Hne12].
  unfold Start.
  eapply bind_returned; [exact Hnew1|]. simpl.
  eapply panicked_in.
  - eapply defer_panicked.
    + eapply bind_returned; [exact Hnew2|]. simpl.
      eapply defer_panicked.
      * eapply bind_returned; [apply native_new_full; simpl in *; lia|]. reflexivity.
      * eapply native_delete_ok; [heap_lookup|reflexivity].
    + eapply native_delete_ok; [heap_lookup|reflexivity].
  - apply world_eq; try reflexivity. heap_restore.
Qed.

(** The three allocations of [Start] when there is room for them. *)
Lemma Start_allocations w :
  size (heap w) + 2 < capacity w ->
  exists a1 a2 a3,
    let w1 := with_heap (insert a1 (OStatus StatusOK)) w in
    let w2 := with_heap (insert a2 (ORequest None)) w1 in
    (heap w !! a1 = None /\ heap w !! a2 = None /\ heap w !! a3 = None) /\
    (a1 <> a2 /\ a1 <> a3 /\ a2 <> a3) /\
    AE_Status_New w = Returned (Some a1) w1 /\
    AE_MetadataSearchRequest_New w1 = Returned (Some a2) w2 /\
    AE_MetadataSearchFuture_New w2 =
      Returned (Some a3) (with_heap (insert a3 (OFuture 0)) w2).
Proof.
  intros Hroom.
  destruct (native_new_ok (OStatus StatusOK) w) as (a1 & Ha1 & Hnew1); [lia|].
  pose proof (size_with_insert a1 (OStatus StatusOK) w Ha1) as Hsz1.
  destruct (native_new_ok (ORequest None) (with_heap (insert a1 (OStatus StatusOK)) w))
    as (a2 & Ha2 & Hnew2); [simpl in *; lia|].
  pose proof (size_with_insert a2 (ORequest None) _ Ha2) as Hsz2.
  destruct (native_new_ok (OFuture 0)
              (with_heap (insert a2 (ORequest None))
                 (with_heap (insert a1 (OStatus StatusOK)) w)))
    as (a3 & Ha3 & Hnew3); [simpl in *; lia|].
  apply fresh_after_insert in Ha3 as [Ha3 Hne23].
  apply fresh_after_insert in Ha3 as [Ha3 Hne13].
  apply fresh_after_insert in Ha2 as [Ha2 Hne12].
  exists a1, a2, a3. simpl. repeat split; assumption.
Qed.

(** A nil request, or a request with a nil fingerprint: line 77 panics, after
    the future has been allocated and with no deferred call to release it. *)
Lemma Start_nil_fingerprint x req w :
  size (heap w) + 2 < capacity w ->
  (req = None \/ exists r, req = Some r /\ Fingerprint_ r = None) ->
  exists a,
    heap w !! a = None /\
    Start x req w = Panicked NilDereference (with_heap (insert a (OFuture 0)) w).
Proof.
  intros Hroom Hnil.
  destruct (Start_allocations w Hroom)
    as (a1 & a2 & a3 & (Ha1 & Ha2 & Ha3) & (Hne12 & Hne13 & Hne23) & Hnew1 & Hnew2 & Hnew3).
  exists a3. split; [exact Ha3|].
  unfold Start.
  eapply bind_returned; [exact Hnew1|]. simpl.
  eapply panicked_in.
  - eapply defer_panicked.
    + eapply bind_returned; [exact Hnew2|]. simpl.
      eapply defer_panicked.
      * eapply bind_returned; [exact Hnew3|]. simpl.
        destruct Hnil as [->|(r & -> & Hfp)]; [reflexivity|].
        rewrite Hfp. reflexivity.
      * eapply native_delete_ok; [heap_lookup|reflexivity].
    + eapply native_delete_ok; [heap_lookup|reflexivity].
  - apply world_eq; try reflexivity. heap_restore.
Qed.

(** The service refuses the submission: every native object of the attempt,
    the future included, is released, and the native side is as before. *)
Lemma Start_failed x fp code message lid w :
  size (heap w) + 2 < capacity w ->
  remote_start (remote w) (session_c x) (ft fp) = (StatusFailed code message, lid) ->
  Start x (Some {| Fingerprint_ := Some fp |}) w =
  Returned (None, Some (StatusError code message)) w.
Proof.
  intros Hroom Hremote.
  destruct (Start_allocations w Hroom)
    as (a1 & a2 & a3 & (Ha1 & Ha2 & Ha3) & (Hne12 & Hne13 & Hne23) & Hnew1 & Hnew2 & Hnew3).
  unfold Start.
  eapply bind_returned; [exact Hnew1|]. simpl.
  eapply returned_in.
  - eapply defer_returned.
    + eapply bind_returned; [exact Hnew2|]. simpl.
      eapply defer_returned.
      * eapply bind_returned; [exact Hnew3|]. simpl.
        eapply bind_returned; [eapply SetFingerprint_ok; heap_lookup|].
        eapply bind_returned; [eapply native_Start_ok; heap_lookup|].
        simpl remote. rewrite Hremote. simpl fst. simpl snd.
        eapply bind_returned; [eapply statusToError_ok; heap_lookup|].
        simpl.
        eapply bind_returned; [eapply native_delete_ok; [heap_lookup|reflexivity]|].
        reflexivity.
      * eapply native_delete_ok; [heap_lookup|reflexivity].
    + eapply native_delete_ok; [heap_lookup|reflexivity].
  - apply world_eq; try reflexivity. heap_restore.
Qed.

(** The service accepts the submission: the future object is the one native
    object that stays, and the Go future holds its handle. *)
Lemma Start_ok x fp lid w :
  size (heap w) + 2 < capacity w ->
  remote_start (remote w) (session_c x) (ft fp) = (StatusOK, lid) ->
  exists a,
    heap w !! a = None /\
    Start x (Some {| Fingerprint_ := Some fp |}) w =
    Returned (Some {| FutureLookupID := uint64 lid; c := Some a; m := false |}, None)
      (with_heap (insert a (OFuture lid)) w).
Proof.
  intros Hroom Hremote.
  destruct (Start_allocations w Hroom)
    as (a1 & a2 & a3 & (Ha1 & Ha2 & Ha3) & (Hne12 & Hne13 & Hne23) & Hnew1 & Hnew2 & Hnew3).
  exists a3. split; [exact Ha3|].
  unfold Start.
  eapply bind_returned; [exact Hnew1|]. simpl.
  eapply returned_in.
  - eapply defer_returned.
    + eapply bind_returned; [exact Hnew2|]. simpl.
      eapply defer_returned.
      * eapply bind_returned; [exact Hnew3|]. simpl.
        eapply bind_returned; [eapply SetFingerprint_ok; heap_lookup|].
        eapply bind_returned; [eapply native_Start_ok; heap_lookup|].
        simpl remote. rewrite Hremote. simpl fst. simpl snd.
        eapply bind_returned; [eapply statusToError_ok; heap_lookup|].
        simpl.
        eapply bind_returned; [eapply read_future_ok; heap_lookup|].
        reflexivity.
      * eapply native_delete_ok; [heap_lookup|reflexivity].
    + eapply native_delete_ok; [heap_lookup|reflexivity].
  - apply world_eq; try reflexivity. heap_restore.
Qed.

(** ** What Get does, case by case *)

Lemma native_returned {A : Type} (p : prog World A) f w a w' :
  p w = Returned a w' ->
  native p {| fut := f; world := w |} = Returned a {| fut := f; world := w' |}.
Proof. intros Hp. unfold native. simpl. rewrite Hp. reflexivity. Qed.

Lemma native_panicked {A : Type} (p : prog World A) f w v w' :
  p w = Panicked v w' ->
  native p {| fut := f; world := w |} = Panicked v {| fut := f; world := w' |}.
Proof. intros Hp. unfold native. simpl. rewrite Hp. reflexivity. Qed.

Lemma close_ok f w h lid :
  c f = Some h -> heap w !! h = Some (OFuture lid) ->
  close {| fut := f; world := w |} =
  Returned tt {| fut := released f; world := with_heap (delete h) w |}.
Proof.
  intros Hc Hh. unfold close.
  eapply bind_returned; [reflexivity|]. simpl. rewrite Hc.
  eapply bind_returned;
    [apply native_returned; eapply native_delete_ok; [exact Hh|reflexivity]|].
  reflexivity.
Qed.

Lemma size_after_Get a1 a2 (H : gmap addr CObject) o1 o2 o3 o4 :
  H !! a1 = None -> H !! a2 = None -> a1 <> a2 ->
  size (<[a1:=o1]> (<[a2:=o2]> (<[a2:=o3]> (<[a1:=o4]> H)))) = size H + 2.
Proof.
  intros Ha1 Ha2 Hne.
  rewrite insert_insert_eq, (insert_insert_ne _ a1 a2) by exact Hne.
  rewrite insert_insert_eq.
  rewrite map_size_insert_None by (rewrite lookup_insert_ne by exact Hne; exact Ha2).
  rewrite map_size_insert_None by exact Ha1. lia.
Qed.

Section Get_live_cases.
Variables (f : MetadataSearchFuture) (w : World) (h : addr) (lid : Z).
Hypothesis Hc : c f = Some h.
Hypothesis Hh : heap w !! h = Some (OFuture lid).

Let s_released : FutureState :=
  {| fut := released f; world := with_heap (delete h) w |}.

Lemma Get_live_full_status :
  capacity w <= size (heap w) ->
  Get_live {| fut := f; world := w |} = Panicked out_of_memory s_released.
Proof.
  intros Hfull. unfold Get_live.
  eapply defer_panicked.
  - eapply bind_returned;
      [apply native_returned; apply native_new_full; exact Hfull|].
    reflexivity.
  - eapply close_ok; eassumption.
Qed.

Lemma Get_live_full_result :
  size (heap w) < capacity w -> capacity w <= size (heap w) + 1 ->
  Get_live {| fut := f; world := w |} = Panicked out_of_memory s_released.
Proof.
  intros Hroom Hfull.
  destruct (native_new_ok (OStatus StatusOK) w Hroom) as (a1 & Ha1 & Hnew1).
  pose proof (size_with_insert a1 (OStatus StatusOK) w Ha1) as Hsz1.
  unfold Get_live.
  eapply panicked_in.
  - eapply defer_panicked.
    + eapply bind_returned; [apply native_returned; exact Hnew1|]. simpl.
      eapply defer_panicked.
      * eapply bind_returned;
          [apply native_returned; apply native_new_full; simpl in *; lia|].
        reflexivity.
      * apply native_returned. eapply native_delete_ok; [heap_lookup|reflexivity].
    + eapply close_ok; [exact Hc|heap_lookup].
  - unfold s_released. f_equal. apply world_eq; try reflexivity. heap_restore.
Qed.

(** The two allocations of [Get] when there is room for them. *)
Lemma Get_allocations :
  size (heap w) + 1 < capacity w ->
  exists a1 a2,
    let w1 := with_heap (insert a1 (OStatus StatusOK)) w in
    (heap w !! a1 = None /\ heap w !! a2 = None /\ a1 <> a2) /\
    AE_Status_New w = Returned (Some a1) w1 /\
    AE_MetadataSearchResult_New w1 =
      Returned (Some a2) (with_heap (insert a2 (OResult (mkCResult 0 0 []))) w1) /\
    size (heap (with_heap (insert a2 (OResult (mkCResult 0 0 []))) w1)) =
      size (heap w) + 2.
Proof.
  intros Hroom.
  destruct (native_new_ok (OStatus StatusOK) w) as (a1 & Ha1 & Hnew1); [lia|].
  pose proof (size_with_insert a1 (OStatus StatusOK) w Ha1) as Hsz1.
  destruct (native_new_ok (OResult (mkCResult 0 0 []))
              (with_heap (insert a1 (OStatus StatusOK)) w))
    as (a2 & Ha2 & Hnew2); [simpl in *; lia|].
  pose proof (size_with_insert a2 (OResult (mkCResult 0 0 [])) _ Ha2) as Hsz2.
  apply fresh_after_insert in Ha2 as [Ha2 Hne12].
  exists a1, a2. simpl. repeat split; try assumption. simpl in *. lia.
Qed.

Lemma Get_live_failed code message r :
  size (heap w) + 1 < capacity w ->
  remote_get (remote w) lid = (StatusFailed code message, r) ->
  Get_live {| fut := f; world := w |} =
  Returned (None, Some (StatusError code message)) s_released.
Proof.
  intros Hroom Hremote.
  destruct (Get_allocations Hroom)
    as (a1 & a2 & (Ha1 & Ha2 & Hne12) & Hnew1 & Hnew2 & _).
  unfold Get_live.
  eapply returned_in.
  - eapply defer_returned.
    + eapply bind_returned; [apply native_returned; exact Hnew1|]. simpl.
      eapply defer_returned.
      * eapply bind_returned; [apply native_returned; exact Hnew2|]. simpl.
        eapply defer_returned.
        -- eapply bind_returned; [reflexivity|]. simpl. rewrite Hc.
           eapply bind_returned;
             [apply native_returned; eapply native_Get_ok; heap_lookup|].
           simpl remote. rewrite Hremote. simpl fst. simpl snd.
           eapply bind_returned;
             [apply native_returned; eapply statusToError_ok; heap_lookup|].
           reflexivity.
        -- apply native_returned. eapply native_delete_ok; [heap_lookup|reflexivity].
      * apply native_returned. eapply native_delete_ok; [heap_lookup|reflexivity].
    + eapply close_ok; [exact Hc|heap_lookup].
  - unfold s_released. f_equal. apply world_eq; try reflexivity. heap_restore.
Qed.

Lemma Get_live_full_match r :
  size (heap w) + 1 < capacity w -> capacity w <= size (heap w) + 2 ->
  remote_get (remote w) lid = (StatusOK, r) ->
  Get_live {| fut := f; world := w |} = Panicked out_of_memory s_released.
Proof.
  intros Hroom Hfull Hremote.
  destruct (Get_allocations Hroom)
    as (a1 & a2 & (Ha1 & Ha2 & Hne12) & Hnew1 & Hnew2 & Hsz).
  unfold Get_live.
  eapply panicked_in.
  - eapply defer_panicked.
    + eapply bind_returned; [apply native_returned; exact Hnew1|]. simpl.
      eapply defer_panicked.
      * eapply bind_returned; [apply native_returned; exact Hnew2|]. simpl.
        eapply defer_panicked.
        -- eapply bind_returned; [reflexivity|]. simpl. rewrite Hc.
           eapply bind_returned;
             [apply native_returned; eapply native_Get_ok; heap_lookup|].
           simpl remote. rewrite Hremote. simpl fst. simpl snd.
           eapply bind_returned;
             [apply native_returned; eapply statusToError_ok; heap_lookup|].
           simpl.
           eapply bind_panicked. apply native_panicked.
           apply processResult_full.
           simpl. rewrite size_after_Get by assumption. lia.
        -- apply native_returned. eapply native_delete_ok; [heap_lookup|reflexivity].
      * apply native_returned. eapply native_delete_ok; [heap_lookup|reflexivity].
    + eapply close_ok; [exact Hc|heap_lookup].
  - unfold s_released. f_equal. apply world_eq; try reflexivity. heap_restore.
Qed.

Lemma Get_live_ok r :
  size (heap w) + 2 < capacity w ->
  remote_get (remote w) lid = (StatusOK, r) ->
  Get_live {| fut := f; world := w |} =
  Returned (Some (decoded_result r), None) s_released.
Proof.
  intros Hroom Hremote.
  destruct Get_allocations
    as (a1 & a2 & (Ha1 & Ha2 & Hne12) & Hnew1 & Hnew2 & Hsz); [lia|].
  unfold Get_live.
  eapply returned_in.
  - eapply defer_returned.
    + eapply bind_returned; [apply native_returned; exact Hnew1|]. simpl.
      eapply defer_returned.
      * eapply bind_returned; [apply native_returned; exact Hnew2|]. simpl.
        eapply defer_returned.
        -- eapply bind_returned; [reflexivity|]. simpl. rewrite Hc.
           eapply bind_returned;
             [apply native_returned; eapply native_Get_ok; heap_lookup|].
           simpl remote. rewrite Hremote. simpl fst. simpl snd.
           eapply bind_returned;
             [apply native_returned; eapply statusToError_ok; heap_lookup|].
           simpl.
           eapply bind_returned; [|reflexivity].
           apply native_returned. apply processResult_ok; [|heap_lookup].
           simpl. rewrite size_after_Get by assumption. lia.
        -- apply native_returned. eapply native_delete_ok; [heap_lookup|reflexivity].
      * apply native_returned. eapply native_delete_ok; [heap_lookup|reflexivity].
    + eapply close_ok; [exact Hc|heap_lookup].
  - unfold s_released. f_equal. apply world_eq; try reflexivity. heap_restore.
Qed.
End Get_live_cases.

(** [Get] is [Get_locked] between [Lock] and [Unlock]. *)
Lemma Get_unlocked f w :
  m f = false ->
  Get {| fut := f; world := w |} =
  match Get_locked {| fut := locked f; world := w |} with
  | Returned v s' => Returned v {| fut := unlocked (fut s'); world := world s' |}
  | Panicked v s' => Panicked v {| fut := unlocked (fut s'); world := world s' |}
  | Stuck why => Stuck why
  end.
Proof.
  intros Hm. unfold Get, bind, Lock, defer, Unlock. simpl. rewrite Hm.
  fold (locked f).
  destruct (Get_locked {| fut := locked f; world := w |}); reflexivity.
Qed.

Lemma Get_held f w :
  m f = true -> Get {| fut := f; world := w |} = Stuck Deadlock.
Proof. intros Hm. unfold Get, bind, Lock. simpl. rewrite Hm. reflexivity. Qed.

Lemma Get_locked_nil f w :
  c f = None ->
  Get_locked {| fut := f; world := w |} =
  Returned (None, Some already_called) {| fut := f; world := w |}.
Proof. intros Hc. unfold Get_locked, bind, get_c. simpl. rewrite Hc. reflexivity. Qed.

Lemma Get_locked_live f w h :
  c f = Some h ->
  Get_locked {| fut := f; world := w |} = Get_live {| fut := f; world := w |}.
Proof. intros Hc. unfold Get_locked, bind, get_c. simpl. rewrite Hc. reflexivity. Qed.

(** A future whose handle is nil: [Get] answers "already called" and changes
    nothing. *)
Lemma Get_nil f w :
  m f = false -> c f = None ->
  Get {| fut := f; world := w |} =
  Returned (None, Some already_called) {| fut := f; world := w |}.
Proof.
  intros Hm Hc. rewrite (Get_unlocked _ _ Hm).
  rewrite Get_locked_nil by exact Hc. simpl.
  destruct f as [lid cf mf]. simpl in *. subst. reflexivity.
Qed.

Lemma Get_of_live f w h o :
  m f = false -> c f = Some h ->
  Get_live {| fut := locked f; world := w |} = o ->
  Get {| fut := f; world := w |} =
  match o with
  | Returned v s' => Returned v {| fut := unlocked (fut s'); world := world s' |}
  | Panicked v s' => Panicked v {| fut := unlocked (fut s'); world := world s' |}
  | Stuck why => Stuck why
  end.
Proof.
  intros Hm Hc <-. rewrite (Get_unlocked _ _ Hm).
  rewrite (Get_locked_live _ _ h) by exact Hc. reflexivity.
Qed.

(** *** What a call that returns has done, whatever the state was *)

Lemma close_returned_inv s u s' :
  close s = Returned u s' -> c (fut s') = None.
Proof.
  unfold close, bind, get_c. destruct (c (fut s)) as [h|]; [|discriminate].
  unfold native.
  destruct (AE_MetadataSearchFuture_Delete h (world s)); try discriminate.
  unfold clear_c. intros H. inversion H. reflexivity.
Qed.

Lemma close_panicked_inv s v s' : close s = Panicked v s' -> False.
Proof.
  unfold close, bind, get_c. destruct (c (fut s)) as [h|]; [|discriminate].
  unfold native, AE_MetadataSearchFuture_Delete, native_delete.
  destruct (heap (world s) !! h) as [o|]; [|discriminate].
  case_decide; discriminate.
Qed.

Lemma Get_live_leaves_nil s :
  match Get_live s with
  | Returned _ s' | Panicked _ s' => c (fut s') = None
  | Stuck _ => True
  end.
Proof.
  unfold Get_live, defer.
  match goal with |- context [match ?body s with _ => _ end] => destruct (body s) end;
    [| |exact I].
  - destruct (close s0) as [u s'|v s'|why] eqn:Hclose; [| |exact I].
    + eapply close_returned_inv. exact Hclose.
    + destruct (close_panicked_inv _ _ _ Hclose).
  - destruct (close s0) as [u s'|v s'|why] eqn:Hclose; [| |exact I].
    + eapply close_returned_inv. exact Hclose.
    + destruct (close_panicked_inv _ _ _ Hclose).
Qed.

Lemma Get_live_value s v s' :
  Get_live s = Returned v s' -> result_xor_error v.
Proof.
  unfold Get_live. intros H.
  apply defer_returned_inv in H as (s1 & H & _).
  apply bind_returned_inv in H as ([a1|] & s2 & _ & H); [|discriminate].
  apply defer_returned_inv in H as (s3 & H & _).
  apply bind_returned_inv in H as ([a2|] & s4 & _ & H); [|discriminate].
  apply defer_returned_inv in H as (s5 & H & _).
  apply bind_returned_inv in H as ([h|] & s6 & _ & H); [|discriminate].
  apply bind_returned_inv in H as (? & s7 & _ & H).
  apply bind_returned_inv in H as ([err|] & s8 & _ & H).
  - inversion H. right. simpl. eauto.
  - apply bind_returned_inv in H as (r & s9 & _ & H).
    inversion H. left. simpl. eauto.
Qed.

Lemma Get_returned_inv s v s' :
  Get s = Returned v s' ->
  result_xor_error v /\ c (fut s') = None /\ m (fut s') = false.
Proof.
  unfold Get. intros H.
  apply bind_returned_inv in H as (u & s1 & _ & H).
  apply defer_returned_inv in H as (s2 & H & Hunlock).
  unfold Unlock in Hunlock. inversion Hunlock; subst; clear Hunlock. simpl.
  unfold Get_locked in H.
  apply bind_returned_inv in H as (xc & s3 & Hget & H).
  unfold get_c in Hget. inversion Hget; subst; clear Hget.
  destruct (c (fut s3)) as [h|] eqn:Hc.
  - pose proof (Get_live_leaves_nil s3) as Hnil. rewrite H in Hnil.
    split; [eapply Get_live_value; exact H|]. auto.
  - inversion H; subst. split; [right; simpl; eauto|]. auto.
Qed.

(** * Main results *)

(** ** The decoder: C3, C4, C5 *)

Lemma int64_in_range z : is_int64 z -> int64 z = z.
Proof.
  unfold is_int64, int64. intros Hz.
  rewrite Z.mod_small by lia. lia.
Qed.

Lemma matches_loop_nil r :
  c_matches r = [] -> matches_loop r 0 slice.nil = slice.nil.
Proof.
  intros Hr. apply matches_loop_done. rewrite Hr. reflexivity.
Qed.

Lemma segments_loop_nil cm :
  c_segments cm = [] -> segments_loop cm 0 slice.nil = slice.nil.
Proof.
  intros Hcm. apply segments_loop_done. rewrite Hcm. reflexivity.
Qed.

(** C3, refuted as stated.  A completed result without matches decodes to a
    [Matches] that is the nil slice, and a match without segments to a
    [Segments] that is the nil slice: neither is an empty non-nil slice. *)
Lemma empty_sequences_are_nil_counterexample :
  (processResult 0 (result_world (mkCResult 7 9 [])) =
     Returned {| LookupID := 7; UGCID := 9; Matches := slice.nil |}
       (result_world (mkCResult 7 9 [])) /\
   ~ empty_but_not_nil (@slice.nil MetadataSearchMatch)) /\
  (processResult 0 (result_world (mkCResult 7 9 [mkCMatch 6 []])) =
     Returned {| LookupID := 7; UGCID := 9;
                 Matches := Some [{| AssetID := 6; Segments := slice.nil |}] |}
       (result_world (mkCResult 7 9 [mkCMatch 6 []])) /\
   ~ empty_but_not_nil (@slice.nil Segment)).
Proof.
  split; (split; [vm_compute; reflexivity|]);
    intros [_ Hnil]; simpl in Hnil; discriminate Hnil.
Qed.

(** C3, amended.  For every completed result with zero matches the decoder
    produces a result whose [Matches] has length zero and is the nil slice;
    for every match with zero segments the produced match has a [Segments] of
    length zero that is the nil slice. *)
Theorem empty_sequences_are_nil w cResult r :
  size (heap w) < capacity w ->
  heap w !! cResult = Some (OResult r) ->
  exists res,
    processResult cResult w = Returned res w /\
    (c_matches r = [] ->
     slice.len (Matches res) = 0 /\ Matches res = slice.nil) /\
    (forall i cm,
       c_matches r !! i = Some cm -> c_segments cm = [] ->
       exists gm,
         slice.elems (Matches res) !! i = Some gm /\
         slice.len (Segments gm) = 0 /\ Segments gm = slice.nil).
Proof.
  intros Hroom Hr. exists (decoded_result r).
  split; [apply processResult_ok; assumption|]. simpl. split.
  - intros Hnone. rewrite (matches_loop_nil _ Hnone). split; reflexivity.
  - intros i cm Hi Hcm. exists (decoded_match cm).
    rewrite matches_loop_elems, list_lookup_fmap, Hi. simpl.
    rewrite (segments_loop_nil _ Hcm). repeat split; reflexivity.
Qed.

Lemma empty_sequences_are_nil_witness :
  size (heap (result_world (mkCResult 7 9 [mkCMatch 6 []]))) <
    capacity (result_world (mkCResult 7 9 [mkCMatch 6 []])) /\
  heap (result_world (mkCResult 7 9 [mkCMatch 6 []])) !! 0 =
    Some (OResult (mkCResult 7 9 [mkCMatch 6 []])) /\
  exists res,
    processResult 0 (result_world (mkCResult 7 9 [mkCMatch 6 []])) =
      Returned res (result_world (mkCResult 7 9 [mkCMatch 6 []])) /\
    (c_matches (mkCResult 7 9 [mkCMatch 6 []]) = [] ->
     slice.len (Matches res) = 0 /\ Matches res = slice.nil) /\
    (forall i cm,
       c_matches (mkCResult 7 9 [mkCMatch 6 []]) !! i = Some cm ->
       c_segments cm = [] ->
       exists gm,
         slice.elems (Matches res) !! i = Some gm /\
         slice.len (Segments gm) = 0 /\ Segments gm = slice.nil).
Proof.
  assert (Hroom : size (heap (result_world (mkCResult 7 9 [mkCMatch 6 []]))) <
                  capacity (result_world (mkCResult 7 9 [mkCMatch 6 []])))
    by (vm_compute; lia).
  assert (Hr : heap (result_world (mkCResult 7 9 [mkCMatch 6 []])) !! 0 =
               Some (OResult (mkCResult 7 9 [mkCMatch 6 []])))
    by (vm_compute; reflexivity).
  split; [exact Hroom|]. split; [exact Hr|].
  exact (empty_sequences_are_nil _ 0 _ Hroom Hr).
Defined.

(** C4.  The decoded [Matches] are the matches of the cursor, one for one
    and in the cursor's order, and the [Segments] of each are the segments of
    its cursor, one for one and in order: nothing is sorted, dropped or
    repeated. *)
Theorem decoder_preserves_order w cResult r :
  size (heap w) < capacity w ->
  heap w !! cResult = Some (OResult r) ->
  exists res,
    processResult cResult w = Returned res w /\
    map match_view (slice.elems (Matches res)) =
    map (fun cm => (uint64 (c_asset_id cm), map decoded_segment (c_segments cm)))
      (c_matches r).
Proof.
  intros Hroom Hr. exists (decoded_result r).
  split; [apply processResult_ok; assumption|]. simpl.
  rewrite matches_loop_elems, map_map.
  apply map_ext. intros cm. unfold match_view. simpl.
  rewrite segments_loop_elems. reflexivity.
Qed.

Lemma decoder_preserves_order_witness :
  size (heap (result_world (example_result 7))) <
    capacity (result_world (example_result 7)) /\
  heap (result_world (example_result 7)) !! 0 = Some (OResult (example_result 7)) /\
  exists res,
    processResult 0 (result_world (example_result 7)) =
      Returned res (result_world (example_result 7)) /\
    map match_view (slice.elems (Matches res)) =
    map (fun cm => (uint64 (c_asset_id cm), map decoded_segment (c_segments cm)))
      (c_matches (example_result 7)).
Proof.
  assert (Hroom : size (heap (result_world (example_result 7))) <
                  capacity (result_world (example_result 7)))
    by (vm_compute; lia).
  assert (Hr : heap (result_world (example_result 7)) !! 0 =
               Some (OResult (example_result 7)))
    by (vm_compute; reflexivity).
  split; [exact Hroom|]. split; [exact Hr|].
  exact (decoder_preserves_order _ 0 _ Hroom Hr).
Defined.

(** C5.  A segment the cursor yields with four offsets in the signed 64-bit
    range is decoded to a [Segment] with exactly those four values, each in
    its own field. *)
Theorem segment_offsets_unmodified w cResult r i j cm sg :
  size (heap w) < capacity w ->
  heap w !! cResult = Some (OResult r) ->
  c_matches r !! i = Some cm ->
  c_segments cm !! j = Some sg ->
  is_int64 (c_query_start sg) -> is_int64 (c_query_end sg) ->
  is_int64 (c_asset_start sg) -> is_int64 (c_asset_end sg) ->
  exists res gm,
    processResult cResult w = Returned res w /\
    slice.elems (Matches res) !! i = Some gm /\
    slice.elems (Segments gm) !! j =
      Some {| QueryStart := c_query_start sg;
              QueryEnd := c_query_end sg;
              AssetStart := c_asset_start sg;
              AssetEnd := c_asset_end sg |}.
Proof.
  intros Hroom Hr Hi Hj Hqs Hqe Has Hae.
  exists (decoded_result r), (decoded_match cm).
  split; [apply processResult_ok; assumption|]. simpl. split.
  - rewrite matches_loop_elems, list_lookup_fmap, Hi. reflexivity.
  - rewrite segments_loop_elems, list_lookup_fmap, Hj. simpl.
    unfold decoded_segment. rewrite !int64_in_range by assumption. reflexivity.
Qed.

Lemma segment_offsets_unmodified_witness :
  exists res gm,
    processResult 0 (result_world (example_result 7)) =
      Returned res (result_world (example_result 7)) /\
    slice.elems (Matches res) !! 0 = Some gm /\
    slice.elems (Segments gm) !! 0 =
      Some {| QueryStart := 10; QueryEnd := 20; AssetStart := 100; AssetEnd := 110 |}.
Proof.
  apply (segment_offsets_unmodified (result_world (example_result 7)) 0
           (example_result 7) 0 0
           (mkCMatch 5 [mkCSegment 10 20 100 110; mkCSegment 30 40 120 130])
           (mkCSegment 10 20 100 110)).
  - vm_compute. lia.
  - vm_compute. reflexivity.
  - reflexivity.
  - reflexivity.
  - unfold is_int64. simpl. lia.
  - unfold is_int64. simpl. lia.
  - unfold is_int64. simpl. lia.
  - unfold is_int64. simpl. lia.
Defined.

(** ** Get: C1, C2, C9 *)

(** C1.  Once a call to [Get] has returned, with a result or with an error,
    the future is consumed: a later call, whatever the native side has become
    in between, returns no result and the error "already called", and leaves
    the future as it found it, so that the same holds for every call after
    it. *)
Theorem Get_consumes_future s v s1 :
  Get s = Returned v s1 ->
  forall w,
    Get {| fut := fut s1; world := w |} =
    Returned (None, Some already_called) {| fut := fut s1; world := w |}.
Proof.
  intros Hfirst w.
  apply Get_returned_inv in Hfirst as (_ & Hc & Hm).
  apply Get_nil; assumption.
Qed.

Lemma Get_consumes_future_witness :
  Get (live_state example_remote) =
    Returned (Some (decoded_result (example_result 7)), None)
      {| fut := consumed live_future; world := empty_world example_remote |} /\
  Get (live_state failing_remote) =
    Returned (None, Some (StatusError 4 "deadline exceeded"))
      {| fut := consumed live_future; world := empty_world failing_remote |} /\
  (forall w,
     Get {| fut := consumed live_future; world := w |} =
     Returned (None, Some already_called)
       {| fut := consumed live_future; world := w |}).
Proof.
  assert (Hok : Get (live_state example_remote) =
                Returned (Some (decoded_result (example_result 7)), None)
                  {| fut := consumed live_future;
                     world := empty_world example_remote |})
    by (vm_compute; reflexivity).
  assert (Hfail : Get (live_state failing_remote) =
                  Returned (None, Some (StatusError 4 "deadline exceeded"))
                    {| fut := consumed live_future;
                       world := empty_world failing_remote |})
    by (vm_compute; reflexivity).
  split; [exact Hok|]. split; [exact Hfail|].
  exact (Get_consumes_future _ _ _ Hfail).
Defined.

(** C2.  When the fetch step of [Get] fails, [Get] returns the error of the
    status and no result, and before it returns the handle field is nil and
    the native future is released: the native side holds what it held before
    the call, less the future. *)
Theorem Get_fetch_failure_consumes f w h lid code message r :
  m f = false ->
  c f = Some h ->
  heap w !! h = Some (OFuture lid) ->
  size (heap w) + 1 < capacity w ->
  remote_get (remote w) lid = (StatusFailed code message, r) ->
  Get {| fut := f; world := w |} =
  Returned (None, Some (StatusError code message))
    {| fut := consumed f; world := with_heap (delete h) w |}.
Proof.
  intros Hm Hc Hh Hroom Hremote.
  rewrite (Get_of_live f w h _ Hm Hc
             (Get_live_failed (locked f) w h lid Hc Hh code message r Hroom Hremote)).
  reflexivity.
Qed.

Lemma Get_fetch_failure_consumes_witness :
  Get (live_state failing_remote) =
  Returned (None, Some (StatusError 4 "deadline exceeded"))
    {| fut := consumed live_future;
       world := with_heap (delete 2) (world (live_state failing_remote)) |}.
Proof.
  apply (Get_fetch_failure_consumes live_future (world (live_state failing_remote))
           2 7 4 "deadline exceeded" (mkCResult 0 0 [])).
  - reflexivity.
  - reflexivity.
  - vm_compute. reflexivity.
  - vm_compute. lia.
  - reflexivity.
Defined.

Lemma Get_returns s :
  Get_can_run s -> exists v s', Get s = Returned v s'.
Proof.
  destruct s as [f w]. intros [Hm [Hc|(h & lid & Hc & Hh & Hroom)]]; simpl in *.
  - eexists _, _. apply Get_nil; assumption.
  - destruct (remote_get (remote w) lid) as [[|code message] r] eqn:Hremote.
    + eexists _, _.
      rewrite (Get_of_live f w h _ Hm Hc
                 (Get_live_ok (locked f) w h lid Hc Hh r Hroom Hremote)).
      reflexivity.
    + assert (Hroom' : size (heap w) + 1 < capacity w) by lia.
      eexists _, _.
      rewrite (Get_of_live f w h _ Hm Hc
                 (Get_live_failed (locked f) w h lid Hc Hh code message r
                    Hroom' Hremote)).
      reflexivity.
Qed.

(** C9.  Of the two values a call to [Get] returns exactly one is not nil:
    there is a result if and only if there is no error.  And [Get] does
    return, whenever the mutex is free and the native side can serve the
    call. *)
Theorem Get_result_iff_no_error s :
  (forall r e s', Get s = Returned (r, e) s' -> (is_Some r <-> e = None)) /\
  (Get_can_run s -> exists r e s', Get s = Returned (r, e) s').
Proof.
  split.
  - intros r e s' Hget.
    apply Get_returned_inv in Hget as ([[Hr He]|[Hr [e' He]]] & _); simpl in *.
    + split; auto.
    + subst. split; [intros [? ?]; discriminate|discriminate].
  - intros Hrun. destruct (Get_returns s Hrun) as ([r e] & s' & Hget). eauto.
Qed.

Lemma Get_result_iff_no_error_witness :
  Get_can_run (live_state example_remote) /\
  Get (live_state example_remote) =
    Returned (Some (decoded_result (example_result 7)), None)
      {| fut := consumed live_future; world := empty_world example_remote |} /\
  (is_Some (Some (decoded_result (example_result 7))) <-> @None error = None) /\
  (exists r e s', Get (live_state example_remote) = Returned (r, e) s').
Proof.
  assert (Hrun : Get_can_run (live_state example_remote)).
  { split; [reflexivity|]. right. exists 2, 7%Z.
    split; [reflexivity|]. split; [vm_compute; reflexivity|vm_compute; lia]. }
  assert (Hget : Get (live_state example_remote) =
                 Returned (Some (decoded_result (example_result 7)), None)
                   {| fut := consumed live_future;
                      world := empty_world example_remote |})
    by (vm_compute; reflexivity).
  split; [exact Hrun|]. split; [exact Hget|]. split.
  - exact (proj1 (Get_result_iff_no_error (live_state example_remote)) _ _ _ Hget).
  - exact (proj2 (Get_result_iff_no_error (live_state example_remote)) Hrun).
Defined.

(** ** Start: C6, C7, C10 *)

(** C6.  When the submission fails, [Start] returns a nil future and the
    error of the status, and the native side is then exactly what it was
    before the call: the future object allocated for the attempt has been
    released, and so have the status and the request. *)
Theorem Start_failure_releases_future x fp code message lid w :
  size (heap w) + 2 < capacity w ->
  remote_start (remote w) (session_c x) (ft fp) = (StatusFailed code message, lid) ->
  Start x (Some {| Fingerprint_ := Some fp |}) w =
  Returned (None, Some (StatusError code message)) w.
Proof. exact (Start_failed x fp code message lid w). Qed.

Lemma Start_failure_releases_future_witness :
  Start example_session (Some example_request) (empty_world failing_remote) =
  Returned (None, Some (StatusError 14 "unavailable")) (empty_world failing_remote).
Proof.
  apply (Start_failure_releases_future example_session example_fingerprint
           14 "unavailable" 0%Z (empty_world failing_remote)).
  - vm_compute. lia.
  - reflexivity.
Defined.

(** Every way [Start] can go, by the room the allocator has, the request
    and the answer of the service. *)
Lemma Start_returned_future_inv x req w f w1 :
  Start x req w = Returned (Some f, None) w1 ->
  exists fp a lid,
    req = Some {| Fingerprint_ := Some fp |} /\
    heap w !! a = None /\
    remote_start (remote w) (session_c x) (ft fp) = (StatusOK, lid) /\
    f = {| FutureLookupID := uint64 lid; c := Some a; m := false |} /\
    w1 = with_heap (insert a (OFuture lid)) w.
Proof.
  intros Hstart.
  destruct (decide (capacity w <= size (heap w))) as [Hfull|Hroom1].
  { rewrite Start_full_status in Hstart by exact Hfull. discriminate. }
  destruct (decide (capacity w <= size (heap w) + 1)) as [Hfull|Hroom2].
  { rewrite Start_full_request in Hstart by lia. discriminate. }
  destruct (decide (capacity w <= size (heap w) + 2)) as [Hfull|Hroom3].
  { rewrite Start_full_future in Hstart by lia. discriminate. }
  assert (Hroom : size (heap w) + 2 < capacity w) by lia.
  destruct req as [[[fp|]]|].
  - destruct (remote_start (remote w) (session_c x) (ft fp))
      as [[|code message] lid] eqn:Hremote.
    + destruct (Start_ok x fp lid w Hroom Hremote) as (a & Ha & Hok).
      rewrite Hok in Hstart. inversion Hstart; subst.
      exists fp, a, lid. auto.
    + rewrite (Start_failed x fp code message lid w Hroom Hremote) in Hstart.
      discriminate.
  - destruct (Start_nil_fingerprint x (Some {| Fingerprint_ := None |}) w Hroom)
      as (a & _ & Hnil); [right; eauto|].
    rewrite Hnil in Hstart. discriminate.
  - destruct (Start_nil_fingerprint x None w Hroom) as (a & _ & Hnil); [left; reflexivity|].
    rewrite Hnil in Hstart. discriminate.
Qed.

Lemma Get_returned_result_inv f w h lid res s2 :
  m f = false -> c f = Some h -> heap w !! h = Some (OFuture lid) ->
  Get {| fut := f; world := w |} = Returned (Some res, None) s2 ->
  res = decoded_result (remote_get (remote w) lid).2.
Proof.
  intros Hm Hc Hh Hget.
  destruct (decide (capacity w <= size (heap w))) as [Hfull|Hroom1].
  { rewrite (Get_of_live f w h _ Hm Hc
               (Get_live_full_status (locked f) w h lid Hc Hh Hfull)) in Hget.
    discriminate. }
  destruct (decide (capacity w <= size (heap w) + 1)) as [Hfull|Hroom2].
  { rewrite (Get_of_live f w h _ Hm Hc
               (Get_live_full_result (locked f) w h lid Hc Hh
                  ltac:(lia) Hfull)) in Hget.
    discriminate. }
  assert (Hroom : size (heap w) + 1 < capacity w) by lia.
  destruct (remote_get (remote w) lid) as [[|code message] r] eqn:Hremote.
  - destruct (decide (capacity w <= size (heap w) + 2)) as [Hfull|Hroom3].
    { rewrite (Get_of_live f w h _ Hm Hc
                 (Get_live_full_match (locked f) w h lid Hc Hh r
                    Hroom Hfull Hremote)) in Hget.
      discriminate. }
    rewrite (Get_of_live f w h _ Hm Hc
               (Get_live_ok (locked f) w h lid Hc Hh r ltac:(lia) Hremote)) in Hget.
    inversion Hget. reflexivity.
  - rewrite (Get_of_live f w h _ Hm Hc
               (Get_live_failed (locked f) w h lid Hc Hh code message r
                  Hroom Hremote)) in Hget.
    discriminate.
Qed.

(** C7.  For a future that a successful [Start] produced, and a service that
    reports in the completed result the lookup identifier it reported at
    submission, the [LookupID] of the future equals the [LookupID] of the
    result that the first successful [Get] returns. *)
Theorem LookupID_round_trip x fp w f w1 res s2 :
  Start x (Some {| Fingerprint_ := Some fp |}) w = Returned (Some f, None) w1 ->
  same_lookup_id (remote w) (session_c x) (ft fp) ->
  Get {| fut := f; world := w1 |} = Returned (Some res, None) s2 ->
  FutureLookupID f = LookupID res.
Proof.
  intros Hstart Hsame Hget.
  apply Start_returned_future_inv in Hstart
    as (fp' & a & lid & Hreq & Ha & Hremote & -> & ->).
  inversion Hreq; subst fp'; clear Hreq.
  unfold same_lookup_id in Hsame. rewrite Hremote in Hsame. simpl in Hsame.
  apply (Get_returned_result_inv _ _ a lid) in Hget;
    [|reflexivity|reflexivity|simpl; apply lookup_insert_eq].
  subst res. simpl. rewrite Hsame. reflexivity.
Qed.

Lemma LookupID_round_trip_witness :
  Start example_session (Some example_request) (empty_world example_remote) =
    Returned (Some live_future, None) (world (live_state example_remote)) /\
  same_lookup_id example_remote (Some 100) (Some 200) /\
  Get (live_state example_remote) =
    Returned (Some (decoded_result (example_result 7)), None)
      {| fut := consumed live_future; world := empty_world example_remote |} /\
  FutureLookupID live_future = LookupID (decoded_result (example_result 7)).
Proof.
  assert (Hstart : Start example_session (Some example_request)
                     (empty_world example_remote) =
                   Returned (Some live_future, None)
                     (world (live_state example_remote)))
    by (vm_compute; reflexivity).
  assert (Hsame : same_lookup_id example_remote (Some 100) (Some 200))
    by reflexivity.
  assert (Hget : Get (live_state example_remote) =
                 Returned (Some (decoded_result (example_result 7)), None)
                   {| fut := consumed live_future;
                      world := empty_world example_remote |})
    by (vm_compute; reflexivity).
  split; [exact Hstart|]. split; [exact Hsame|]. split; [exact Hget|].
  exact (LookupID_round_trip example_session example_fingerprint
           (empty_world example_remote) live_future _ _ _ Hstart Hsame Hget).
Defined.

(** C10.  For a request whose [Fingerprint] is nil, [Start] returns nothing,
    so no invalid-argument error either: it panics.  The panic is the nil
    dereference of line 77 whenever the three allocations before that line
    succeed; there is no check of the field anywhere before it. *)
Theorem Start_nil_fingerprint_panics x r w :
  Fingerprint_ r = None ->
  (exists v w', Start x (Some r) w = Panicked v w' /\
     (size (heap w) + 2 < capacity w -> v = NilDereference)) /\
  (forall res w', Start x (Some r) w <> Returned res w').
Proof.
  intros Hnil.
  assert (Hpanic : exists v w', Start x (Some r) w = Panicked v w' /\
            (size (heap w) + 2 < capacity w -> v = NilDereference)).
  { destruct (decide (capacity w <= size (heap w))) as [Hfull|Hroom1].
    { exists out_of_memory, w. split; [apply Start_full_status; exact Hfull|lia]. }
    destruct (decide (capacity w <= size (heap w) + 1)) as [Hfull|Hroom2].
    { exists out_of_memory, w. split; [apply Start_full_request; lia|lia]. }
    destruct (decide (capacity w <= size (heap w) + 2)) as [Hfull|Hroom3].
    { exists out_of_memory, w. split; [apply Start_full_future; lia|lia]. }
    destruct (Start_nil_fingerprint x (Some r) w) as (a & _ & Hstart);
      [lia|right; eauto|].
    eexists _, _. split; [exact Hstart|reflexivity]. }
  split; [exact Hpanic|].
  intros res w' Hret. destruct Hpanic as (v & w'' & Hstart & _).
  rewrite Hstart in Hret. discriminate.
Qed.

Lemma Start_nil_fingerprint_panics_witness :
  Fingerprint_ nil_fingerprint_request = None /\
  (exists v w',
     Start example_session (Some nil_fingerprint_request) (empty_world example_remote) =
       Panicked v w' /\
     (size (heap (empty_world example_remote)) + 2 <
        capacity (empty_world example_remote) -> v = NilDereference)) /\
  (forall res w',
     Start example_session (Some nil_fingerprint_request) (empty_world example_remote)
     <> Returned res w').
Proof.
  split; [reflexivity|].
  apply (Start_nil_fingerprint_panics example_session nil_fingerprint_request
           (empty_world example_remote)).
  reflexivity.
Defined.

(** ** Goroutines calling Get on one future: C8 *)

(** The three steps of a goroutine are [Get]. *)
Lemma run_alone_is_Get s : goroutine_is_Get s.
Proof.
  unfold goroutine_is_Get.
  destruct s as [[lid xc [|]] w].
  - reflexivity.
  - unfold Get, bind, defer, Lock, Unlock. simpl.
    destruct (Get_locked
                {| fut := {| FutureLookupID := lid; c := xc; m := true |};
                   world := w |});
      reflexivity.
Qed.

Lemma lookup_insert_self (ts : list thread) i t t' :
  ts !! i = Some t -> <[i:=t']> ts !! i = Some t'.
Proof. intros Hi. apply list_lookup_insert_eq. eapply lookup_lt_Some. exact Hi. Qed.

Lemma lookup_insert_other (ts : list thread) i j t' :
  j <> i -> <[i:=t']> ts !! j = ts !! j.
Proof. intros Hne. apply list_lookup_insert_ne. congruence. Qed.

(** On a live future lines 111 to 129 always finish, by a return or by the
    out-of-memory panic, and always with the future released. *)
Lemma Get_live_total f w h lid :
  c f = Some h -> heap w !! h = Some (OFuture lid) ->
  exists first,
    Get_live {| fut := f; world := w |} =
      outcome_as first {| fut := released f; world := with_heap (delete h) w |} /\
    first <> AlreadyConsumed /\
    (size (heap w) + 2 < capacity w -> result_or_fetch_error first).
Proof.
  intros Hc Hh.
  destruct (decide (capacity w <= size (heap w))) as [Hfull|Hroom1].
  { exists (Panic out_of_memory). split; [|split; [discriminate|lia]].
    apply (Get_live_full_status f w h lid Hc Hh Hfull). }
  destruct (decide (capacity w <= size (heap w) + 1)) as [Hfull|Hroom2].
  { exists (Panic out_of_memory). split; [|split; [discriminate|lia]].
    apply (Get_live_full_result f w h lid Hc Hh); lia. }
  assert (Hroom : size (heap w) + 1 < capacity w) by lia.
  destruct (remote_get (remote w) lid) as [[|code message] r] eqn:Hremote.
  - destruct (decide (capacity w <= size (heap w) + 2)) as [Hfull|Hroom3].
    { exists (Panic out_of_memory). split; [|split; [discriminate|lia]].
      apply (Get_live_full_match f w h lid Hc Hh r Hroom Hfull Hremote). }
    exists (Ret (Some (decoded_result r), None)).
    split; [|split; [discriminate|intros _; left; eauto]].
    apply (Get_live_ok f w h lid Hc Hh r); [lia|exact Hremote].
  - exists (Ret (None, Some (StatusError code message))).
    split; [|split; [discriminate|intros _; right; eauto]].
    apply (Get_live_failed f w h lid Hc Hh code message r Hroom Hremote).
Qed.

Section one_future.
Variables (f : MetadataSearchFuture) (w : World) (h : addr) (first : result).

(** The goroutine that finds the handle live consumes the future, and what
    it gets is [first]. *)
Hypothesis Hfetch :
  thread_step Holding (shared f (Some h) true w) =
  Some (AtUnlock first, shared f None true (with_heap (delete h) w)).

Abbreviation shape := (reachable_shape f w h first).

Lemma step_preserves_shape cfg cfg' :
  shape cfg -> step cfg cfg' -> shape cfg'.
Proof.
  intros Hshape Hstep.
  destruct Hstep as [ts s i0 t0 t1 s1 Hi0 Ht0].
  inversion Hshape as
    [ts' Hall
    |ts' i Hi Hothers
    |ts' k Hk Hothers
    |ts' k Hk Hothers
    |ts' k i t Hki Hk Hi Ht Hothers]; subst ts' s; clear Hshape.
  - (* nobody has locked yet *)
    rewrite (Hall _ _ Hi0) in Ht0. simpl in Ht0. inversion Ht0; subst; clear Ht0.
    apply (shape_first f w h first _ i0).
    + eapply lookup_insert_self. exact Hi0.
    + intros j t' Hne Hj. rewrite lookup_insert_other in Hj by exact Hne. eauto.
  - (* the first goroutine holds the mutex *)
    destruct (decide (i0 = i)) as [->|Hne0].
    + rewrite Hi in Hi0. inversion Hi0; subst t0; clear Hi0.
      rewrite Hfetch in Ht0. inversion Ht0; subst; clear Ht0.
      apply (shape_winner_unlocking f w h first _ i).
      * eapply lookup_insert_self. exact Hi.
      * intros j t' Hne Hj. rewrite lookup_insert_other in Hj by exact Hne.
        left. eauto.
    + rewrite (Hothers _ _ Hne0 Hi0) in Ht0. discriminate Ht0.
  - (* the winner is about to unlock *)
    destruct (decide (i0 = k)) as [->|Hne0].
    + rewrite Hk in Hi0. inversion Hi0; subst t0; clear Hi0.
      simpl in Ht0. inversion Ht0; subst; clear Ht0.
      apply (shape_consumed f w h first _ k).
      * eapply lookup_insert_self. exact Hk.
      * intros j t' Hne Hj. rewrite lookup_insert_other in Hj by exact Hne. eauto.
    + destruct (Hothers _ _ Hne0 Hi0) as [-> | ->]; discriminate Ht0.
  - (* consumed, mutex free *)
    destruct (decide (i0 = k)) as [->|Hne0].
    + rewrite Hk in Hi0. inversion Hi0; subst t0. discriminate Ht0.
    + destruct (Hothers _ _ Hne0 Hi0) as [-> | ->]; [|discriminate Ht0].
      simpl in Ht0. inversion Ht0; subst; clear Ht0.
      apply (shape_late f w h first _ k i0 Holding).
      * congruence.
      * rewrite lookup_insert_other by congruence. exact Hk.
      * eapply lookup_insert_self. exact Hi0.
      * left. reflexivity.
      * intros j t' Hnek Hnei Hj. rewrite lookup_insert_other in Hj by exact Hnei.
        eauto.
  - (* consumed, a late goroutine holds the mutex *)
    destruct (decide (i0 = k)) as [->|Hnek0].
    { rewrite Hk in Hi0. inversion Hi0; subst t0. discriminate Ht0. }
    destruct (decide (i0 = i)) as [->|Hnei0].
    + rewrite Hi in Hi0. inversion Hi0; subst t0; clear Hi0.
      destruct Ht as [-> | ->].
      * (* what the late goroutine receives is what [Get_locked] gives *)
        simpl in Ht0. inversion Ht0; subst; clear Ht0.
        apply (shape_late f w h first _ k i (AtUnlock AlreadyConsumed)).
        -- exact Hki.
        -- rewrite lookup_insert_other by exact Hki. exact Hk.
        -- eapply lookup_insert_self. exact Hi.
        -- right. reflexivity.
        -- intros j t' Hnek Hnei Hj.
           rewrite lookup_insert_other in Hj by exact Hnei. eauto.
      * simpl in Ht0. inversion Ht0; subst; clear Ht0.
        apply (shape_consumed f w h first _ k).
        -- rewrite lookup_insert_other by exact Hki. exact Hk.
        -- intros j t' Hnek Hj.
           destruct (decide (j = i)) as [->|Hnei].
           ++ rewrite (lookup_insert_self _ _ _ _ Hi) in Hj.
              inversion Hj. right. reflexivity.
           ++ rewrite lookup_insert_other in Hj by exact Hnei. eauto.
    + destruct (Hothers _ _ Hnek0 Hnei0 Hi0) as [-> | ->]; discriminate Ht0.
Qed.

Lemma steps_preserve_shape cfg cfg' :
  shape cfg -> rtc step cfg cfg' -> shape cfg'.
Proof.
  intros Hshape Hsteps. induction Hsteps as [cfg|cfg cfg1 cfg2 Hstep _ IH].
  - exact Hshape.
  - apply IH. eapply step_preserves_shape; eassumption.
Qed.

(** At most one goroutine is between [Lock] and [Unlock], and the mutex is
    held while one is. *)
Lemma shape_mutual_exclusion ts s :
  shape (ts, s) ->
  forall i j ti tj,
    ts !! i = Some ti -> ts !! j = Some tj ->
    in_critical_section ti -> in_critical_section tj ->
    i = j /\ m (fut s) = true.
Proof.
  intros Hshape i j ti tj Hi Hj Hci Hcj.
  assert (Hout : forall t, waiting_or_late t -> ~ in_critical_section t).
  { intros t [-> | ->]; simpl; tauto. }
  inversion Hshape as
    [ts' Hall
    |ts' i0 Hi0 Hothers
    |ts' k Hk Hothers
    |ts' k Hk Hothers
    |ts' k i0 t Hki Hk Hi0 Ht Hothers]; subst ts' s; clear Hshape.
  - rewrite (Hall _ _ Hi) in Hci. destruct Hci.
  - destruct (decide (i = i0)) as [->|Hne];
      [|rewrite (Hothers _ _ Hne Hi) in Hci; destruct Hci].
    destruct (decide (j = i0)) as [->|Hne];
      [|rewrite (Hothers _ _ Hne Hj) in Hcj; destruct Hcj].
    split; reflexivity.
  - destruct (decide (i = k)) as [->|Hne];
      [|destruct (Hout _ (Hothers _ _ Hne Hi) Hci)].
    destruct (decide (j = k)) as [->|Hne];
      [|destruct (Hout _ (Hothers _ _ Hne Hj) Hcj)].
    split; reflexivity.
  - destruct (decide (i = k)) as [->|Hne];
      [|destruct (Hout _ (Hothers _ _ Hne Hi) Hci)].
    rewrite Hk in Hi. inversion Hi; subst ti. destruct Hci.
  - assert (Hin : forall x tx, ts !! x = Some tx -> in_critical_section tx -> x = i0).
    { intros x tx Hx Hcx.
      destruct (decide (x = k)) as [->|Hnek].
      { rewrite Hk in Hx. inversion Hx; subst tx. destruct Hcx. }
      destruct (decide (x = i0)) as [->|Hnei]; [reflexivity|].
      destruct (Hout _ (Hothers _ _ Hnek Hnei Hx) Hcx). }
    rewrite (Hin _ _ Hi Hci), (Hin _ _ Hj Hcj). split; reflexivity.
Qed.

(** A goroutine that holds the mutex always has its next step: the handle it
    passes to the native library is live, and is released once. *)
Lemma shape_holder_steps ts s i t :
  shape (ts, s) -> ts !! i = Some t -> in_critical_section t ->
  is_Some (thread_step t s).
Proof.
  intros Hshape Hi Hci.
  assert (Hout : forall t', waiting_or_late t' -> ~ in_critical_section t').
  { intros t' [-> | ->]; simpl; tauto. }
  inversion Hshape as
    [ts' Hall
    |ts' i0 Hi0 Hothers
    |ts' k Hk Hothers
    |ts' k Hk Hothers
    |ts' k i0 t0 Hki Hk Hi0 Ht Hothers]; subst ts' s; clear Hshape.
  - rewrite (Hall _ _ Hi) in Hci. destruct Hci.
  - destruct (decide (i = i0)) as [->|Hne];
      [|rewrite (Hothers _ _ Hne Hi) in Hci; destruct Hci].
    rewrite Hi0 in Hi. inversion Hi; subst t. rewrite Hfetch. eauto.
  - destruct (decide (i = k)) as [->|Hne];
      [|destruct (Hout _ (Hothers _ _ Hne Hi) Hci)].
    rewrite Hk in Hi. inversion Hi; subst t. simpl. eauto.
  - destruct (decide (i = k)) as [->|Hne];
      [|destruct (Hout _ (Hothers _ _ Hne Hi) Hci)].
    rewrite Hk in Hi. inversion Hi; subst t. destruct Hci.
  - destruct (decide (i = k)) as [->|Hnek].
    { rewrite Hk in Hi. inversion Hi; subst t. destruct Hci. }
    destruct (decide (i = i0)) as [->|Hnei];
      [|destruct (Hout _ (Hothers _ _ Hnek Hnei Hi) Hci)].
    rewrite Hi0 in Hi. inversion Hi; subst t0.
    destruct Ht as [-> | ->]; simpl; eauto.
Qed.

(** No deadlock: while some goroutine has not returned, some goroutine has
    a step. *)
Lemma shape_progress ts s :
  shape (ts, s) -> Forall is_done ts \/ exists cfg', step (ts, s) cfg'.
Proof.
  intros Hshape.
  destruct (decide (Forall is_done ts)) as [Hdone|Hnot]; [left; exact Hdone|right].
  apply not_Forall_Exists in Hnot; [|apply _].
  apply Exists_exists in Hnot as (t & Hin & Hnd).
  apply list_elem_of_lookup in Hin as [j Hj].
  assert (Hholder : forall i ti,
            ts !! i = Some ti -> in_critical_section ti ->
            exists cfg', step (ts, s) cfg').
  { intros i ti Hi Hci.
    destruct (shape_holder_steps ts s i ti Hshape Hi Hci) as [[t' s'] Hstep].
    eexists. eapply step_thread; eassumption. }
  inversion Hshape as
    [ts' Hall
    |ts' i0 Hi0 Hothers
    |ts' k Hk Hothers
    |ts' k Hk Hothers
    |ts' k i0 t0 Hki Hk Hi0 Ht Hothers]; subst ts' s.
  - rewrite (Hall _ _ Hj) in Hj.
    eexists. eapply step_thread; [exact Hj|reflexivity].
  - apply (Hholder _ _ Hi0). exact I.
  - apply (Hholder _ _ Hk). exact I.
  - destruct (decide (j = k)) as [->|Hne].
    { rewrite Hk in Hj. inversion Hj; subst t. destruct Hnd. exact I. }
    destruct (Hothers _ _ Hne Hj) as [-> | ->]; [|destruct Hnd; exact I].
    eexists. eapply step_thread; [exact Hj|reflexivity].
  - apply (Hholder _ _ Hi0). destruct Ht as [-> | ->]; exact I.
Qed.

(** When every goroutine has returned: one of them has [first], every other
    has "already called", and the future is consumed. *)
Lemma shape_final ts s :
  shape (ts, s) -> Forall is_done ts -> ts <> [] ->
  s = shared f None false (with_heap (delete h) w) /\
  exists k,
    ts !! k = Some (Done first) /\
    forall j t, j <> k -> ts !! j = Some t -> t = Done AlreadyConsumed.
Proof.
  intros Hshape Hdone Hne.
  assert (Hd : forall i t, ts !! i = Some t -> is_done t).
  { intros i t Hi. eapply Forall_lookup_1; eassumption. }
  inversion Hshape as
    [ts' Hall
    |ts' i0 Hi0 Hothers
    |ts' k Hk Hothers
    |ts' k Hk Hothers
    |ts' k i0 t0 Hki Hk Hi0 Ht Hothers]; subst ts' s.
  - destruct ts as [|t ts]; [congruence|].
    pose proof (Hd 0 t eq_refl) as Hdt.
    rewrite (Hall 0 t eq_refl) in Hdt. destruct Hdt.
  - destruct (Hd _ _ Hi0).
  - destruct (Hd _ _ Hk).
  - split; [reflexivity|]. exists k. split; [exact Hk|].
    intros j t Hnej Hj.
    destruct (Hothers _ _ Hnej Hj) as [-> | ->]; [destruct (Hd _ _ Hj)|reflexivity].
  - pose proof (Hd _ _ Hi0) as Hdt. destruct Ht as [-> | ->]; destruct Hdt.
Qed.
End one_future.

(** *** Every execution is short *)

Lemma thread_step_decreases t s t' s' :
  thread_step t s = Some (t', s') -> steps_left t' < steps_left t.
Proof.
  destruct t; unfold thread_step.
  - destruct (Lock s); intros H; inversion H; subst. simpl. lia.
  - destruct (Get_locked s); intros H; inversion H; subst; simpl; lia.
  - unfold Unlock. intros H; inversion H; subst. simpl. lia.
  - discriminate.
Qed.

Lemma work_insert ts i t t' :
  ts !! i = Some t ->
  work (<[i:=t']> ts) + steps_left t = work ts + steps_left t'.
Proof.
  revert i. induction ts as [|t0 ts IH]; intros [|i] Hi;
    try discriminate; simpl in *.
  - inversion Hi; subst. lia.
  - specialize (IH i Hi). lia.
Qed.

Lemma step_decreases_work cfg cfg' :
  step cfg cfg' -> work cfg'.1 < work cfg.1 /\ length cfg'.1 = length cfg.1.
Proof.
  intros [ts s i t t' s' Hi Ht]. simpl.
  pose proof (work_insert ts i t t' Hi) as Hw.
  pose proof (thread_step_decreases _ _ _ _ Ht) as Hlt.
  split; [lia|apply length_insert].
Qed.

Lemma nsteps_bounded k cfg cfg' :
  nsteps step k cfg cfg' ->
  work cfg'.1 + k <= work cfg.1 /\ length cfg'.1 = length cfg.1.
Proof.
  induction 1 as [cfg|k cfg cfg1 cfg2 Hstep _ IH].
  - split; [lia|reflexivity].
  - apply step_decreases_work in Hstep as [Hw Hlen].
    destruct IH as [IHw IHlen]. split; [lia|congruence].
Qed.

Lemma work_replicate n : work (replicate n AtLock) = 3 * n.
Proof. induction n as [|n IH]; simpl in *; lia. Qed.

Lemma run_schedule_nsteps sched cfg cfg' :
  run_schedule sched cfg = Some cfg' -> nsteps step (length sched) cfg cfg'.
Proof.
  revert cfg. induction sched as [|i sched IH]; intros [ts s]; simpl.
  - intros H. inversion H. apply nsteps_O.
  - destruct (ts !! i) as [t|] eqn:Hi; [|discriminate].
    destruct (thread_step t s) as [[t' s']|] eqn:Ht; [|discriminate].
    intros Hrun. eapply nsteps_l; [|apply IH; exact Hrun].
    apply step_thread with (t := t); assumption.
Qed.



(** * Further properties of the code *)

(** ** Start *)

(** X1.  When the service accepts the submission, [Start] returns a future
    and no error; the future holds the identifier the service assigned and a
    handle that was not allocated before, and the native side has gained that
    one future object and nothing else: status and request are released. *)
Theorem Start_success_leaves_only_the_future x fp lid w :
  size (heap w) + 2 < capacity w ->
  remote_start (remote w) (session_c x) (ft fp) = (StatusOK, lid) ->
  exists a w',
    Start x (Some {| Fingerprint_ := Some fp |}) w =
      Returned (Some {| FutureLookupID := uint64 lid; c := Some a; m := false |},
                None) w' /\
    heap w !! a = None /\
    heap w' = <[a := OFuture lid]> (heap w) /\
    size (heap w') = S (size (heap w)) /\
    capacity w' = capacity w /\ remote w' = remote w.
Proof.
  intros Hroom Hremote.
  destruct (Start_ok x fp lid w Hroom Hremote) as (a & Ha & Hstart).
  exists a, (with_heap (insert a (OFuture lid)) w).
  split; [exact Hstart|]. split; [exact Ha|]. split; [reflexivity|].
  split; [apply size_with_insert; exact Ha|]. split; reflexivity.
Qed.

Lemma Start_success_leaves_only_the_future_witness :
  exists a w',
    Start example_session (Some example_request) (empty_world example_remote) =
      Returned (Some {| FutureLookupID := uint64 7; c := Some a; m := false |},
                None) w' /\
    heap (empty_world example_remote) !! a = None /\
    heap w' = <[a := OFuture 7]> (heap (empty_world example_remote)) /\
    size (heap w') = S (size (heap (empty_world example_remote))) /\
    capacity w' = capacity (empty_world example_remote) /\
    remote w' = remote (empty_world example_remote).
Proof.
  apply (Start_success_leaves_only_the_future example_session example_fingerprint
           7 (empty_world example_remote)).
  - vm_compute. lia.
  - reflexivity.
Defined.

(** X2.  When the allocator cannot hold three more objects, [Start] panics
    with "out of memory", whatever the request, and the native side is what
    it was: the objects allocated before the failing allocation are released
    by their deferred calls. *)
Theorem Start_out_of_memory_releases_all x req w :
  capacity w <= size (heap w) + 2 ->
  Start x req w = Panicked out_of_memory w.
Proof.
  intros Hfull.
  destruct (decide (capacity w <= size (heap w))) as [Hfull0|Hroom1].
  { apply Start_full_status. exact Hfull0. }
  destruct (decide (capacity w <= size (heap w) + 1)) as [Hfull1|Hroom2].
  { apply Start_full_request; lia. }
  apply Start_full_future; lia.
Qed.

Lemma Start_out_of_memory_releases_all_witness :
  Start example_session (Some example_request) (tight_world 2 example_remote) =
  Panicked out_of_memory (tight_world 2 example_remote).
Proof.
  apply (Start_out_of_memory_releases_all example_session (Some example_request)
           (tight_world 2 example_remote)).
  vm_compute. lia.
Defined.

(** X3.  On a nil request or a nil [Fingerprint], with room in the
    allocator, the panic of line 77 leaves the native future allocated at
    line 72 behind: no deferred call releases it and no Go value holds its
    handle.  The native side has one object more than before [Start]. *)
Theorem Start_nil_fingerprint_leaks_future x req w :
  size (heap w) + 2 < capacity w ->
  (req = None \/ exists r, req = Some r /\ Fingerprint_ r = None) ->
  exists a w',
    Start x req w = Panicked NilDereference w' /\
    heap w !! a = None /\
    heap w' = <[a := OFuture 0]> (heap w) /\
    size (heap w') = S (size (heap w)).
Proof.
  intros Hroom Hnil.
  destruct (Start_nil_fingerprint x req w Hroom Hnil) as (a & Ha & Hstart).
  exists a, (with_heap (insert a (OFuture 0)) w).
  split; [exact Hstart|]. split; [exact Ha|]. split; [reflexivity|].
  apply size_with_insert. exact Ha.
Qed.

Lemma Start_nil_fingerprint_leaks_future_witness :
  exists a w',
    Start example_session None (empty_world example_remote) =
      Panicked NilDereference w' /\
    heap (empty_world example_remote) !! a = None /\
    heap w' = <[a := OFuture 0]> (heap (empty_world example_remote)) /\
    size (heap w') = S (size (heap (empty_world example_remote))).
Proof.
  apply (Start_nil_fingerprint_leaks_future example_session None
           (empty_world example_remote)).
  - vm_compute. lia.
  - left. reflexivity.
Defined.

(** Every way [Start] can return. *)
Lemma Start_returned_inv x req w v w' :
  Start x req w = Returned v w' ->
  exists fp,
    req = Some {| Fingerprint_ := Some fp |} /\
    size (heap w) + 2 < capacity w /\
    match remote_start (remote w) (session_c x) (ft fp) with
    | (StatusOK, lid) =>
        exists a,
          heap w !! a = None /\
          v = (Some {| FutureLookupID := uint64 lid; c := Some a; m := false |}, None) /\
          w' = with_heap (insert a (OFuture lid)) w
    | (StatusFailed code message, _) =>
        v = (None, Some (StatusError code message)) /\ w' = w
    end.
Proof.
  intros Hstart.
  destruct (decide (capacity w <= size (heap w) + 2)) as [Hfull|Hroom].
  { destruct (decide (capacity w <= size (heap w))) as [Hfull0|Hroom1].
    { rewrite Start_full_status in Hstart by exact Hfull0. discriminate. }
    destruct (decide (capacity w <= size (heap w) + 1)) as [Hfull1|Hroom2].
    { rewrite Start_full_request in Hstart by lia. discriminate. }
    rewrite Start_full_future in Hstart by lia. discriminate. }
  assert (Hroom' : size (heap w) + 2 < capacity w) by lia.
  destruct req as [[[fp|]]|].
  - exists fp. split; [reflexivity|]. split; [exact Hroom'|].
    destruct (remote_start (remote w) (session_c x) (ft fp))
      as [[|code message] lid] eqn:Hremote.
    + destruct (Start_ok x fp lid w Hroom' Hremote) as (a & Ha & Hok).
      rewrite Hok in Hstart. inversion Hstart; subst. exists a. auto.
    + rewrite (Start_failed x fp code message lid w Hroom' Hremote) in Hstart.
      inversion Hstart. auto.
  - destruct (Start_nil_fingerprint x (Some {| Fingerprint_ := None |}) w Hroom')
      as (a & _ & Hnil); [right; eauto|].
    rewrite Hnil in Hstart. discriminate.
  - destruct (Start_nil_fingerprint x None w Hroom') as (a & _ & Hnil);
      [left; reflexivity|].
    rewrite Hnil in Hstart. discriminate.
Qed.

Lemma Start_on_receiver x req w : Start_on (Some x) req w = Start x req w.
Proof. reflexivity. Qed.

(** On a nil receiver [Start] does not return: every path to a return
    statement goes through the dereference of line 79. *)
Lemma Start_on_nil_never_returns req w v w' :
  Start_on None req w <> Returned v w'.
Proof.
  unfold Start_on. intros H.
  apply bind_returned_inv in H as ([cStatus|] & w1 & _ & H); [|discriminate].
  apply defer_returned_inv in H as (w2 & H & _).
  apply bind_returned_inv in H as ([cRequest|] & w3 & _ & H); [|discriminate].
  apply defer_returned_inv in H as (w4 & H & _).
  apply bind_returned_inv in H as ([cFuture|] & w5 & _ & H); [|discriminate].
  destruct req as [r|]; [|discriminate].
  destruct (Fingerprint_ r) as [fp|]; [|discriminate].
  apply bind_returned_inv in H as (u & w6 & _ & H).
  discriminate.
Qed.

(** X4.  Of the two values [Start] returns exactly one is not nil: there is
    a future if and only if there is no error, on every receiver.  And
    [Start] does return when its receiver is not nil, the request has a
    fingerprint and the allocator has room for the three objects of the
    call. *)
Theorem Start_future_iff_no_error x req w :
  (forall f e w', Start_on x req w = Returned (f, e) w' ->
                  (is_Some f <-> e = None)) /\
  (forall x0, x = Some x0 -> Start_on x req w = Start x0 req w) /\
  (size (heap w) + 2 < capacity w ->
   (exists x0, x = Some x0) ->
   (exists fp, req = Some {| Fingerprint_ := Some fp |}) ->
   exists f e w', Start_on x req w = Returned (f, e) w').
Proof.
  split; [|split].
  - intros f e w' Hstart. destruct x as [x0|].
    + rewrite Start_on_receiver in Hstart.
      apply Start_returned_inv in Hstart as (fp & _ & _ & Hcase).
      destruct (remote_start (remote w) (session_c x0) (ft fp))
        as [[|code message] lid].
      * destruct Hcase as (a & _ & Hv & _). inversion Hv; subst.
        split; [reflexivity|eauto].
      * destruct Hcase as [Hv _]. inversion Hv; subst.
        split; [intros [? ?]; discriminate|discriminate].
    + destruct (Start_on_nil_never_returns _ _ _ _ Hstart).
  - intros x0 ->. apply Start_on_receiver.
  - intros Hroom (x0 & ->) (fp & ->). rewrite Start_on_receiver.
    destruct (remote_start (remote w) (session_c x0) (ft fp))
      as [[|code message] lid] eqn:Hremote.
    + destruct (Start_ok x0 fp lid w Hroom Hremote) as (a & _ & Hok). eauto.
    + pose proof (Start_failed x0 fp code message lid w Hroom Hremote). eauto.
Qed.

Lemma Start_future_iff_no_error_witness :
  Start_on (Some example_session) (Some example_request)
    (empty_world failing_remote) =
    Returned (None, Some (StatusError 14 "unavailable")) (empty_world failing_remote) /\
  (is_Some (@None MetadataSearchFuture) <->
   Some (StatusError 14 "unavailable") = None) /\
  Start_on (Some example_session) (Some example_request)
    (empty_world failing_remote) =
    Start example_session (Some example_request) (empty_world failing_remote) /\
  (exists f e w',
     Start_on (Some example_session) (Some example_request)
       (empty_world failing_remote) =
     Returned (f, e) w').
Proof.
  assert (Hstart : Start_on (Some example_session) (Some example_request)
                     (empty_world failing_remote) =
                   Returned (None, Some (StatusError 14 "unavailable"))
                     (empty_world failing_remote))
    by (vm_compute; reflexivity).
  split; [exact Hstart|].
  destruct (Start_future_iff_no_error (Some example_session) (Some example_request)
              (empty_world failing_remote)) as (Hiff & Hsame & Hreturns).
  split; [exact (Hiff _ _ _ Hstart)|].
  split; [exact (Hsame example_session eq_refl)|].
  apply Hreturns.
  - vm_compute. lia.
  - exists example_session. reflexivity.
  - exists example_fingerprint. reflexivity.
Defined.

(** ** Get *)

(** What [Get] does on a live future, in full. *)
Lemma Get_on_live f w h lid :
  m f = false -> c f = Some h -> heap w !! h = Some (OFuture lid) ->
  Get {| fut := f; world := w |} =
  let done := {| fut := consumed f; world := with_heap (delete h) w |} in
  if decide (capacity w <= size (heap w) + 1) then Panicked out_of_memory done
  else
    match remote_get (remote w) lid with
    | (StatusFailed code message, _) =>
        Returned (None, Some (StatusError code message)) done
    | (StatusOK, r) =>
        if decide (capacity w <= size (heap w) + 2)
        then Panicked out_of_memory done
        else Returned (Some (decoded_result r), None) done
    end.
Proof.
  intros Hm Hc Hh. simpl.
  destruct (decide (capacity w <= size (heap w) + 1)) as [Hfull|Hroom].
  { destruct (decide (capacity w <= size (heap w))) as [Hfull0|Hroom0].
    - rewrite (Get_of_live f w h _ Hm Hc
                 (Get_live_full_status (locked f) w h lid Hc Hh Hfull0)).
      reflexivity.
    - rewrite (Get_of_live f w h _ Hm Hc
                 (Get_live_full_result (locked f) w h lid Hc Hh
                    ltac:(lia) Hfull)).
      reflexivity. }
  assert (Hroom' : size (heap w) + 1 < capacity w) by lia.
  destruct (remote_get (remote w) lid) as [[|code message] r] eqn:Hremote.
  - destruct (decide (capacity w <= size (heap w) + 2)) as [Hfull|Hroom2].
    + rewrite (Get_of_live f w h _ Hm Hc
                 (Get_live_full_match (locked f) w h lid Hc Hh r
                    Hroom' Hfull Hremote)).
      reflexivity.
    + rewrite (Get_of_live f w h _ Hm Hc
                 (Get_live_ok (locked f) w h lid Hc Hh r ltac:(lia) Hremote)).
      reflexivity.
  - rewrite (Get_of_live f w h _ Hm Hc
               (Get_live_failed (locked f) w h lid Hc Hh code message r
                  Hroom' Hremote)).
    reflexivity.
Qed.

(** However [Get] leaves a live future, it leaves it consumed and the native
    future released. *)
Lemma Get_on_live_state f w h lid o s' :
  m f = false -> c f = Some h -> heap w !! h = Some (OFuture lid) ->
  Get {| fut := f; world := w |} = outcome_as o s' ->
  s' = {| fut := consumed f; world := with_heap (delete h) w |}.
Proof.
  intros Hm Hc Hh Hget.
  rewrite (Get_on_live f w h lid Hm Hc Hh) in Hget. simpl in Hget.
  repeat case_decide;
    destruct (remote_get (remote w) lid) as [[|code message] r];
    destruct o; simpl in Hget; inversion Hget; reflexivity.
Qed.

(** X5.  On a live future, with room in the allocator and a search that
    succeeded, [Get] returns the decoding of the result the service gave and
    no error; the future is consumed, and the native side is what it was less
    the future: status, result and scratch match are released. *)
Theorem Get_success_returns_decoded_result f w h lid r :
  m f = false ->
  c f = Some h ->
  heap w !! h = Some (OFuture lid) ->
  size (heap w) + 2 < capacity w ->
  remote_get (remote w) lid = (StatusOK, r) ->
  Get {| fut := f; world := w |} =
  Returned (Some (decoded_result r), None)
    {| fut := consumed f; world := with_heap (delete h) w |}.
Proof.
  intros Hm Hc Hh Hroom Hremote.
  rewrite (Get_on_live f w h lid Hm Hc Hh). simpl.
  rewrite decide_False by lia. rewrite Hremote.
  rewrite decide_False by lia. reflexivity.
Qed.

Lemma Get_success_returns_decoded_result_witness :
  Get (live_state example_remote) =
  Returned (Some (decoded_result (example_result 7)), None)
    {| fut := consumed live_future;
       world := with_heap (delete 2) (world (live_state example_remote)) |}.
Proof.
  apply (Get_success_returns_decoded_result live_future
           (world (live_state example_remote)) 2 7 (example_result 7)).
  - reflexivity.
  - reflexivity.
  - vm_compute. reflexivity.
  - vm_compute. lia.
  - reflexivity.
Defined.

(** X6.  A [Get] that panics on a live future panics with "out of memory",
    and only when the allocator cannot hold three more objects; the deferred
    [close] and [Unlock] have run all the same: the handle field is nil, the
    native future is released, the mutex is free, and a later [Get] returns
    "already called". *)
Theorem Get_panic_still_consumes f w h lid p s' :
  m f = false ->
  c f = Some h ->
  heap w !! h = Some (OFuture lid) ->
  Get {| fut := f; world := w |} = Panicked p s' ->
  p = out_of_memory /\
  capacity w <= size (heap w) + 2 /\
  s' = {| fut := consumed f; world := with_heap (delete h) w |} /\
  forall w2,
    Get {| fut := fut s'; world := w2 |} =
    Returned (None, Some already_called) {| fut := fut s'; world := w2 |}.
Proof.
  intros Hm Hc Hh Hget.
  pose proof (Get_on_live_state f w h lid (Panic p) s' Hm Hc Hh Hget) as Hs'.
  rewrite (Get_on_live f w h lid Hm Hc Hh) in Hget. simpl in Hget.
  assert (Hp : p = out_of_memory /\ capacity w <= size (heap w) + 2).
  { destruct (decide (capacity w <= size (heap w) + 1)).
    - inversion Hget. split; [reflexivity|lia].
    - destruct (remote_get (remote w) lid) as [[|code message] r];
        [|discriminate].
      destruct (decide (capacity w <= size (heap w) + 2)); [|discriminate].
      inversion Hget. split; [reflexivity|assumption]. }
  destruct Hp as [Hp Hfull].
  split; [exact Hp|]. split; [exact Hfull|]. split; [exact Hs'|].
  intros w2. subst s'. apply Get_nil; reflexivity.
Qed.

Lemma Get_panic_still_consumes_witness :
  Get full_live_state =
    Panicked out_of_memory
      {| fut := consumed live_future;
         world := with_heap (delete 2) (world full_live_state) |} /\
  out_of_memory = out_of_memory /\
  capacity (world full_live_state) <= size (heap (world full_live_state)) + 2 /\
  {| fut := consumed live_future;
     world := with_heap (delete 2) (world full_live_state) |} =
  {| fut := consumed live_future;
     world := with_heap (delete 2) (world full_live_state) |} /\
  forall w2,
    Get {| fut := consumed live_future; world := w2 |} =
    Returned (None, Some already_called)
      {| fut := consumed live_future; world := w2 |}.
Proof.
  assert (Hget : Get full_live_state =
                 Panicked out_of_memory
                   {| fut := consumed live_future;
                      world := with_heap (delete 2) (world full_live_state) |})
    by (vm_compute; reflexivity).
  split; [exact Hget|].
  apply (Get_panic_still_consumes live_future (world full_live_state) 2 7
           out_of_memory
           {| fut := consumed live_future;
              world := with_heap (delete 2) (world full_live_state) |}).
  - reflexivity.
  - reflexivity.
  - vm_compute. reflexivity.
  - exact Hget.
Defined.

(** X7.  A successful [Start] followed by [Get] on its future gives the
    native side back exactly as it was before [Start], whether [Get] returns
    the result, returns the fetch error or panics: the pair allocates nothing
    that it does not release. *)
Theorem Start_then_Get_restores_native_side x req w f w1 o s2 :
  Start x req w = Returned (Some f, None) w1 ->
  Get {| fut := f; world := w1 |} = outcome_as o s2 ->
  world s2 = w /\ c (fut s2) = None /\ m (fut s2) = false /\
  FutureLookupID (fut s2) = FutureLookupID f.
Proof.
  intros Hstart Hget.
  apply Start_returned_future_inv in Hstart
    as (fp & a & lid & _ & Ha & _ & -> & ->).
  apply (Get_on_live_state _ _ a lid) in Hget;
    [|reflexivity|reflexivity|simpl; apply lookup_insert_eq].
  subst s2. simpl. repeat split.
  apply world_eq; try reflexivity. heap_restore.
Qed.

Lemma Start_then_Get_restores_native_side_witness :
  Start example_session (Some example_request) (empty_world example_remote) =
    Returned (Some live_future, None) (world (live_state example_remote)) /\
  Get {| fut := live_future; world := world (live_state example_remote) |} =
    outcome_as (Ret (Some (decoded_result (example_result 7)), None))
      example_consumed_state /\
  world example_consumed_state = empty_world example_remote /\
  c (fut example_consumed_state) = None /\
  m (fut example_consumed_state) = false /\
  FutureLookupID (fut example_consumed_state) = FutureLookupID live_future.
Proof.
  assert (Hstart : Start example_session (Some example_request)
                     (empty_world example_remote) =
                   Returned (Some live_future, None)
                     (world (live_state example_remote)))
    by (vm_compute; reflexivity).
  assert (Hget : Get {| fut := live_future;
                        world := world (live_state example_remote) |} =
                 outcome_as (Ret (Some (decoded_result (example_result 7)), None))
                   example_consumed_state)
    by (vm_compute; reflexivity).
  split; [exact Hstart|]. split; [exact Hget|].
  exact (Start_then_Get_restores_native_side example_session (Some example_request)
           (empty_world example_remote) live_future _ _ _ Hstart Hget).
Defined.

(** X8.  Futures of two successful submissions are independent: their
    handles differ, and consuming the first, however its [Get] ends, leaves
    the native future of the second live and untouched, with the identifier
    the second future reports. *)
Theorem futures_are_independent x1 req1 x2 req2 w f1 w1 f2 w2 o s :
  Start x1 req1 w = Returned (Some f1, None) w1 ->
  Start x2 req2 w1 = Returned (Some f2, None) w2 ->
  Get {| fut := f1; world := w2 |} = outcome_as o s ->
  c f1 <> c f2 /\
  exists h2 lid2,
    c f2 = Some h2 /\
    FutureLookupID f2 = uint64 lid2 /\
    heap w2 !! h2 = Some (OFuture lid2) /\
    heap (world s) !! h2 = Some (OFuture lid2).
Proof.
  intros Hstart1 Hstart2 Hget.
  apply Start_returned_future_inv in Hstart1
    as (fp1 & a1 & lid1 & _ & Ha1 & _ & -> & ->).
  apply Start_returned_future_inv in Hstart2
    as (fp2 & a2 & lid2 & _ & Ha2 & _ & -> & ->).
  apply fresh_after_insert in Ha2 as [Ha2 Hne].
  apply (Get_on_live_state _ _ a1 lid1) in Hget;
    [|reflexivity|reflexivity|heap_lookup].
  subst s. simpl. split; [congruence|].
  exists a2, lid2. repeat split; heap_lookup.
Qed.

Lemma futures_are_independent_witness :
  Start example_session (Some example_request) (empty_world example_remote) =
    Returned (Some live_future, None) (world (live_state example_remote)) /\
  Start example_session (Some example_request) (world (live_state example_remote)) =
    Returned (Some {| FutureLookupID := 7; c := Some 5; m := false |}, None)
      example_two_futures /\
  Get {| fut := live_future; world := example_two_futures |} =
    outcome_as (Ret (Some (decoded_result (example_result 7)), None))
      {| fut := consumed live_future;
         world := with_heap (delete 2) example_two_futures |} /\
  c live_future <> Some 5 /\
  exists h2 lid2,
    Some 5 = Some h2 /\
    7%Z = uint64 lid2 /\
    heap example_two_futures !! h2 = Some (OFuture lid2) /\
    heap (with_heap (delete 2) example_two_futures) !! h2 = Some (OFuture lid2).
Proof.
  assert (Hstart1 : Start example_session (Some example_request)
                      (empty_world example_remote) =
                    Returned (Some live_future, None)
                      (world (live_state example_remote)))
    by (vm_compute; reflexivity).
  assert (Hstart2 : Start example_session (Some example_request)
                      (world (live_state example_remote)) =
                    Returned
                      (Some {| FutureLookupID := 7; c := Some 5; m := false |}, None)
                      example_two_futures)
    by (vm_compute; reflexivity).
  assert (Hget : Get {| fut := live_future; world := example_two_futures |} =
                 outcome_as (Ret (Some (decoded_result (example_result 7)), None))
                   {| fut := consumed live_future;
                      world := with_heap (delete 2) example_two_futures |})
    by (vm_compute; reflexivity).
  split; [exact Hstart1|]. split; [exact Hstart2|]. split; [exact Hget|].
  exact (futures_are_independent _ _ _ _ _ _ _ _ _ _ _ Hstart1 Hstart2 Hget).
Defined.

(** ** The decoder *)

Lemma uint64_in_range z : is_uint64 z -> uint64 z = z.
Proof. unfold is_uint64, uint64. intros Hz. apply Z.mod_small. lia. Qed.

(** X9.  Identifiers in the unsigned 64-bit range come out of the decoder
    as the native result has them: the lookup identifier, the identifier of
    the content, and the asset identifier of every match, in order. *)
Theorem decoder_keeps_identifiers w cResult r :
  size (heap w) < capacity w ->
  heap w !! cResult = Some (OResult r) ->
  is_uint64 (c_lookup_id r) ->
  is_uint64 (c_ugc_id r) ->
  Forall (fun cm => is_uint64 (c_asset_id cm)) (c_matches r) ->
  exists res,
    processResult cResult w = Returned res w /\
    LookupID res = c_lookup_id r /\
    UGCID res = c_ugc_id r /\
    map AssetID (slice.elems (Matches res)) = map c_asset_id (c_matches r).
Proof.
  intros Hroom Hr Hlid Hugc Hassets. exists (decoded_result r).
  split; [apply processResult_ok; assumption|]. simpl.
  rewrite !uint64_in_range by assumption. repeat split.
  rewrite matches_loop_elems, map_map.
  induction Hassets as [|cm cms Hcm _ IH]; simpl; [reflexivity|].
  rewrite uint64_in_range by exact Hcm. f_equal. exact IH.
Qed.

Lemma decoder_keeps_identifiers_witness :
  exists res,
    processResult 0 (result_world (example_result 7)) =
      Returned res (result_world (example_result 7)) /\
    LookupID res = 7%Z /\
    UGCID res = 9%Z /\
    map AssetID (slice.elems (Matches res)) = [5%Z; 6%Z].
Proof.
  apply (decoder_keeps_identifiers (result_world (example_result 7)) 0
           (example_result 7)).
  - vm_compute. lia.
  - vm_compute. reflexivity.
  - unfold is_uint64. simpl. lia.
  - unfold is_uint64. simpl. lia.
  - repeat constructor; unfold is_uint64; simpl; lia.
Defined.

Lemma segments_loop_is_nil cm :
  slice.is_nil (segments_loop cm 0 slice.nil) = true <-> c_segments cm = [].
Proof.
  rewrite (segments_loop_drop cm (c_segments cm) 0 slice.nil eq_refl).
  destruct (c_segments cm); simpl; split; intros H; congruence.
Qed.

Lemma matches_loop_is_nil r :
  slice.is_nil (matches_loop r 0 slice.nil) = true <-> c_matches r = [].
Proof.
  rewrite (matches_loop_drop r (c_matches r) 0 slice.nil eq_refl).
  destruct (c_matches r); simpl; split; intros H; congruence.
Qed.

(** X10.  The decoded [Matches] has as many elements as the cursor yields
    matches and is the nil slice exactly when it yields none; the [Segments]
    of every decoded match has as many elements as that match has segments
    and is the nil slice exactly when it has none.  With one element or more
    the slice is never nil. *)
Theorem decoder_lengths_and_nil w cResult r :
  size (heap w) < capacity w ->
  heap w !! cResult = Some (OResult r) ->
  exists res,
    processResult cResult w = Returned res w /\
    slice.len (Matches res) = length (c_matches r) /\
    (slice.is_nil (Matches res) = true <-> c_matches r = []) /\
    forall i cm,
      c_matches r !! i = Some cm ->
      exists gm,
        slice.elems (Matches res) !! i = Some gm /\
        slice.len (Segments gm) = length (c_segments cm) /\
        (slice.is_nil (Segments gm) = true <-> c_segments cm = []).
Proof.
  intros Hroom Hr. exists (decoded_result r).
  split; [apply processResult_ok; assumption|]. simpl.
  split; [|split].
  - unfold slice.len. rewrite matches_loop_elems. apply length_map.
  - apply matches_loop_is_nil.
  - intros i cm Hi. exists (decoded_match cm).
    split; [rewrite matches_loop_elems, list_lookup_fmap, Hi; reflexivity|].
    simpl. split.
    + unfold slice.len. rewrite segments_loop_elems. apply length_map.
    + apply segments_loop_is_nil.
Qed.

Lemma decoder_lengths_and_nil_witness :
  exists res,
    processResult 0 (result_world (example_result 7)) =
      Returned res (result_world (example_result 7)) /\
    slice.len (Matches res) = length (c_matches (example_result 7)) /\
    (slice.is_nil (Matches res) = true <-> c_matches (example_result 7) = []) /\
    forall i cm,
      c_matches (example_result 7) !! i = Some cm ->
      exists gm,
        slice.elems (Matches res) !! i = Some gm /\
        slice.len (Segments gm) = length (c_segments cm) /\
        (slice.is_nil (Segments gm) = true <-> c_segments cm = []).
Proof.
  apply (decoder_lengths_and_nil (result_world (example_result 7)) 0
           (example_result 7)).
  - vm_compute. lia.
  - vm_compute. reflexivity.
Defined.

(** X11.  On a live result handle the decoder never changes the native
    side: it returns the decoding with its scratch match released, or, when
    the allocator is full and only then, panics with "out of memory" before
    it has allocated anything. *)
Theorem decoder_leaves_native_side w cResult r :
  heap w !! cResult = Some (OResult r) ->
  (size (heap w) < capacity w /\
   processResult cResult w = Returned (decoded_result r) w) \/
  (capacity w <= size (heap w) /\
   processResult cResult w = Panicked out_of_memory w).
Proof.
  intros Hr.
  destruct (decide (size (heap w) < capacity w)) as [Hroom|Hfull].
  - left. split; [exact Hroom|]. apply processResult_ok; assumption.
  - right. split; [lia|]. apply processResult_full. lia.
Qed.

Lemma decoder_leaves_native_side_witness :
  (size (heap (full_result_world)) < capacity full_result_world /\
   processResult 0 full_result_world =
     Returned (decoded_result (example_result 7)) full_result_world) \/
  (capacity full_result_world <= size (heap full_result_world) /\
   processResult 0 full_result_world = Panicked out_of_memory full_result_world).
Proof.
  apply (decoder_leaves_native_side full_result_world 0 (example_result 7)).
  vm_compute. reflexivity.
Defined.

(** ** What Start, Get and the decoder do not depend on *)

Section commuting.
Context {S : Type} (g : S -> S).

Lemma commutes_ret {A : Type} (a : A) : commutes g (ret a).
Proof. intros s. reflexivity. Qed.

Lemma commutes_panic {A : Type} (v : panic_value) : commutes g (@panic S A v).
Proof. intros s. reflexivity. Qed.

Lemma commutes_undefined {A : Type} : commutes g (@undefined S A).
Proof. intros s. reflexivity. Qed.

Lemma commutes_bind {A B : Type} (p : prog S A) (k : A -> prog S B) :
  commutes g p -> (forall a, commutes g (k a)) -> commutes g (bind p k).
Proof.
  intros Hp Hk s. unfold bind. rewrite Hp.
  destruct (p s) as [a s1|v s1|why]; simpl; [apply Hk|reflexivity|reflexivity].
Qed.

Lemma commutes_defer {A : Type} (d : prog S unit) (body : prog S A) :
  commutes g d -> commutes g body -> commutes g (defer d body).
Proof.
  intros Hd Hb s. unfold defer. rewrite Hb.
  destruct (body s) as [a s1|v s1|why]; simpl; [| |reflexivity];
    rewrite Hd; destruct (d s1) as [u s2|v' s2|why]; reflexivity.
Qed.
End commuting.

Ltac commute_step :=
  first
    [ apply commutes_ret
    | apply commutes_panic
    | apply commutes_undefined
    | apply commutes_defer
    | apply commutes_bind; [|intros ?]
    | match goal with
      | |- commutes _ (match ?x with _ => _ end) => destruct x
      end ].

Section native_commuting.
Variable g : World -> World.
Hypothesis Hheap : forall w, heap (g w) = heap w.
Hypothesis Hcapacity : forall w, capacity (g w) = capacity w.
Hypothesis Hwith : forall f w, g (with_heap f w) = with_heap f (g w).

Lemma commutes_native_new init : commutes g (native_new init).
Proof.
  intros w. unfold native_new. rewrite Hheap, Hcapacity.
  case_decide; simpl; [rewrite Hwith|]; reflexivity.
Qed.

Lemma commutes_native_delete k p : commutes g (native_delete k p).
Proof.
  intros w. unfold native_delete. rewrite Hheap.
  destruct (heap w !! p) as [o|]; [|reflexivity].
  case_decide; simpl; [rewrite Hwith|]; reflexivity.
Qed.

Lemma commutes_native_read p : commutes g (native_read p).
Proof.
  intros w. unfold native_read. rewrite Hheap.
  destruct (heap w !! p); reflexivity.
Qed.

Lemma commutes_native_write p o : commutes g (native_write p o).
Proof. intros w. unfold native_write. simpl. rewrite Hwith. reflexivity. Qed.

Lemma commutes_read_status p : commutes g (read_status p).
Proof.
  unfold read_status. apply commutes_bind; [apply commutes_native_read|].
  intros o. repeat commute_step.
Qed.

Lemma commutes_read_request p : commutes g (read_request p).
Proof.
  unfold read_request. apply commutes_bind; [apply commutes_native_read|].
  intros o. repeat commute_step.
Qed.

Lemma commutes_read_future p : commutes g (read_future p).
Proof.
  unfold read_future. apply commutes_bind; [apply commutes_native_read|].
  intros o. repeat commute_step.
Qed.

Lemma commutes_read_result p : commutes g (read_result p).
Proof.
  unfold read_result. apply commutes_bind; [apply commutes_native_read|].
  intros o. repeat commute_step.
Qed.

Lemma commutes_statusToError p : commutes g (statusToError p).
Proof.
  unfold statusToError. apply commutes_bind; [apply commutes_read_status|].
  intros st. repeat commute_step.
Qed.

Lemma commutes_SetFingerprint p fp :
  commutes g (AE_MetadataSearchRequest_SetFingerprint p fp).
Proof.
  unfold AE_MetadataSearchRequest_SetFingerprint.
  apply commutes_bind; [apply commutes_read_request|].
  intros _. apply commutes_native_write.
Qed.

Lemma commutes_processResult cResult : commutes g (processResult cResult).
Proof.
  unfold processResult, AE_MetadataSearchMatch_New, AE_MetadataSearchMatch_Delete.
  apply commutes_bind; [apply commutes_native_new|].
  intros [a|]; [|apply commutes_panic].
  apply commutes_defer; [apply commutes_native_delete|].
  apply commutes_bind; [apply commutes_read_result|].
  intros r. apply commutes_ret.
Qed.

(** [Start], when [g] keeps what the service answers to submissions. *)
Lemma commutes_Start x req :
  (forall w, remote_start (remote (g w)) = remote_start (remote w)) ->
  commutes g (Start x req).
Proof.
  intros Hstart.
  assert (Hnative : forall session cRequest cFuture cStatus,
            commutes g (AE_MetadataSearch_Start session cRequest cFuture cStatus)).
  { intros session cRequest cFuture cStatus. unfold AE_MetadataSearch_Start.
    apply commutes_bind; [apply commutes_read_request|]. intros fp.
    apply commutes_bind; [apply commutes_read_future|]. intros _.
    apply commutes_bind; [apply commutes_read_status|]. intros _.
    intros w. rewrite Hstart.
    destruct (remote_start (remote w) session fp) as [st lid].
    apply (commutes_bind g); [apply commutes_native_write|].
    intros _. apply commutes_native_write. }
  unfold Start, AE_Status_New, AE_Status_Delete, AE_MetadataSearchRequest_New,
    AE_MetadataSearchRequest_Delete, AE_MetadataSearchFuture_New,
    AE_MetadataSearchFuture_Delete, AE_MetadataSearchFuture_GetLookupID.
  apply commutes_bind; [apply commutes_native_new|].
  intros [cStatus|]; [|apply commutes_panic].
  apply commutes_defer; [apply commutes_native_delete|].
  apply commutes_bind; [apply commutes_native_new|].
  intros [cRequest|]; [|apply commutes_panic].
  apply commutes_defer; [apply commutes_native_delete|].
  apply commutes_bind; [apply commutes_native_new|].
  intros [cFuture|]; [|apply commutes_panic].
  destruct req as [r|]; [|apply commutes_panic].
  destruct (Fingerprint_ r) as [fp|]; [|apply commutes_panic].
  apply commutes_bind; [apply commutes_SetFingerprint|]. intros _.
  apply commutes_bind; [apply Hnative|]. intros _.
  apply commutes_bind; [apply commutes_statusToError|].
  intros [err|].
  - apply commutes_bind; [apply commutes_native_delete|]. intros _.
    apply commutes_ret.
  - apply commutes_bind; [apply commutes_read_future|]. intros lid.
    apply commutes_ret.
Qed.

Lemma commutes_native {A : Type} (p : prog World A) :
  commutes g p -> commutes (on_world g) (native p).
Proof.
  intros Hp s. unfold native, on_world. simpl. rewrite Hp.
  destruct (p (world s)); reflexivity.
Qed.

(** [Get], when [g] keeps what the service answers to a wait. *)
Lemma commutes_Get :
  (forall w, remote_get (remote (g w)) = remote_get (remote w)) ->
  commutes (on_world g) Get.
Proof.
  intros Hget.
  assert (Hnative : forall cFuture cResult cStatus,
            commutes g (AE_MetadataSearchFuture_Get cFuture cResult cStatus)).
  { intros cFuture cResult cStatus. unfold AE_MetadataSearchFuture_Get.
    apply commutes_bind; [apply commutes_read_future|]. intros lid.
    apply commutes_bind; [apply commutes_read_result|]. intros _.
    apply commutes_bind; [apply commutes_read_status|]. intros _.
    intros w. rewrite Hget.
    destruct (remote_get (remote w) lid) as [st r].
    apply (commutes_bind g); [apply commutes_native_write|].
    intros _. apply commutes_native_write. }
  assert (Hget_c : commutes (on_world g) get_c) by (intros s; reflexivity).
  assert (Hclear : commutes (on_world g) clear_c) by (intros s; reflexivity).
  assert (Hunlock : commutes (on_world g) Unlock) by (intros s; reflexivity).
  assert (Hlock : commutes (on_world g) Lock).
  { intros s. unfold Lock. simpl. destruct (m (fut s)); reflexivity. }
  assert (Hclose : commutes (on_world g) close).
  { unfold close. apply commutes_bind; [exact Hget_c|].
    intros [h|]; [|apply commutes_undefined].
    apply commutes_bind; [|intros _; exact Hclear].
    apply commutes_native. apply commutes_native_delete. }
  unfold Get. apply commutes_bind; [exact Hlock|]. intros _.
  apply commutes_defer; [exact Hunlock|].
  unfold Get_locked. apply commutes_bind; [exact Hget_c|].
  intros [h|]; [|apply commutes_ret].
  unfold Get_live, AE_Status_New, AE_Status_Delete, AE_MetadataSearchResult_New,
    AE_MetadataSearchResult_Delete.
  apply commutes_defer; [exact Hclose|].
  apply commutes_bind; [apply commutes_native; apply commutes_native_new|].
  intros [cStatus|]; [|apply commutes_panic].
  apply commutes_defer; [apply commutes_native; apply commutes_native_delete|].
  apply commutes_bind; [apply commutes_native; apply commutes_native_new|].
  intros [cResult|]; [|apply commutes_panic].
  apply commutes_defer; [apply commutes_native; apply commutes_native_delete|].
  apply commutes_bind; [exact Hget_c|].
  intros [h'|]; [|apply commutes_undefined].
  apply commutes_bind; [apply commutes_native; apply Hnative|]. intros _.
  apply commutes_bind; [apply commutes_native; apply commutes_statusToError|].
  intros [err|]; [apply commutes_ret|].
  apply commutes_bind; [apply commutes_native; apply commutes_processResult|].
  intros r. apply commutes_ret.
Qed.
End native_commuting.

(** X12.  The outcome of [Start] and the native side it leaves do not depend
    on how the service would complete the search: [Start] submits and does
    not wait. *)
Theorem Start_does_not_wait x req get w :
  Start x req (with_remote_get get w) =
  outcome_map (with_remote_get get) (Start x req w).
Proof.
  apply (commutes_Start (with_remote_get get)); intros; reflexivity.
Qed.

(** X13.  The outcome of [Get] and the state it leaves do not depend on how
    the service would answer a submission: [Get] never submits. *)
Theorem Get_does_not_submit start s :
  Get (on_world (with_remote_start start) s) =
  outcome_map (on_world (with_remote_start start)) (Get s).
Proof.
  apply (commutes_Get (with_remote_start start)); intros; reflexivity.
Qed.

(** X14.  The decoder does not depend on the service at all: it makes no
    remote call. *)
Theorem processResult_is_local cResult rm w :
  processResult cResult (with_remote rm w) =
  outcome_map (with_remote rm) (processResult cResult w).
Proof.
  apply (commutes_processResult (with_remote rm)); intros; reflexivity.
Qed.

(** ** Goroutines calling Get on a consumed future *)

Lemma step_preserves_consumed_shape f w cfg cfg' :
  consumed_shape f w cfg -> step cfg cfg' -> consumed_shape f w cfg'.
Proof.
  intros Hshape Hstep.
  destruct Hstep as [ts s i0 t0 t1 s1 Hi0 Ht0].
  inversion Hshape as [ts' Hall|ts' i t Hi Ht Hothers]; subst ts' s; clear Hshape.
  - destruct (Hall _ _ Hi0) as [-> | ->]; [|discriminate Ht0].
    simpl in Ht0. inversion Ht0; subst; clear Ht0.
    apply (consumed_held f w _ i0 Holding).
    + eapply lookup_insert_self. exact Hi0.
    + left. reflexivity.
    + intros j t' Hne Hj. rewrite lookup_insert_other in Hj by exact Hne. eauto.
  - destruct (decide (i0 = i)) as [->|Hne0].
    + rewrite Hi in Hi0. inversion Hi0; subst t0; clear Hi0.
      destruct Ht as [-> | ->]; simpl in Ht0; inversion Ht0; subst; clear Ht0.
      * (* what the goroutine receives is what [Get_locked] gives *)
        apply (consumed_held f w _ i (AtUnlock AlreadyConsumed)).
        -- eapply lookup_insert_self. exact Hi.
        -- right. reflexivity.
        -- intros j t' Hne Hj. rewrite lookup_insert_other in Hj by exact Hne.
           eauto.
      * apply (consumed_free f w).
        intros j t' Hj. destruct (decide (j = i)) as [->|Hne].
        -- rewrite (lookup_insert_self _ _ _ _ Hi) in Hj. inversion Hj.
           right. reflexivity.
        -- rewrite lookup_insert_other in Hj by exact Hne. eauto.
    + destruct (Hothers _ _ Hne0 Hi0) as [-> | ->]; discriminate Ht0.
Qed.

Lemma steps_preserve_consumed_shape f w cfg cfg' :
  consumed_shape f w cfg -> rtc step cfg cfg' -> consumed_shape f w cfg'.
Proof.
  intros Hshape Hsteps. induction Hsteps as [cfg|cfg cfg1 cfg2 Hstep _ IH].
  - exact Hshape.
  - apply IH. eapply step_preserves_consumed_shape; eassumption.
Qed.

(** X15.  [n] goroutines call [Get] on a future that is already consumed, in
    any interleaving of their steps, and a goroutine's steps are those of
    [Get]: alone it does exactly what [Get] does, on every state.  The native
    side stays as it is and the handle stays nil; whatever a goroutine has
    received is what [Get] gives on that future, "already called"; at most
    one goroutine at a time is between [Lock] and [Unlock]; nobody waits for
    ever, and every execution ends within [3 * n] steps. *)
Theorem concurrent_Get_on_consumed n f w k ts s :
  m f = false ->
  c f = None ->
  nsteps step k (replicate n AtLock, {| fut := f; world := w |}) (ts, s) ->
  (forall s0, goroutine_is_Get s0) /\
  Get {| fut := f; world := w |} =
    outcome_as AlreadyConsumed {| fut := f; world := w |} /\
  world s = w /\
  c (fut s) = None /\
  (forall i o, ts !! i = Some (AtUnlock o) \/ ts !! i = Some (Done o) ->
               o = AlreadyConsumed) /\
  (forall i j ti tj,
     ts !! i = Some ti -> ts !! j = Some tj ->
     in_critical_section ti -> in_critical_section tj ->
     i = j /\ m (fut s) = true) /\
  (Forall is_done ts \/ exists cfg', step (ts, s) cfg') /\
  k <= 3 * n.
Proof.
  intros Hm Hc Hsteps.
  assert (Hinit : {| fut := f; world := w |} = shared f None false w).
  { unfold shared. destruct f as [lid' xc held]. simpl in *. subst. reflexivity. }
  assert (Hshape : consumed_shape f w (ts, s)).
  { eapply steps_preserve_consumed_shape; [|eapply rtc_nsteps_2; exact Hsteps].
    rewrite Hinit. apply consumed_free.
    intros j t Hj. apply lookup_replicate in Hj as [-> _]. left. reflexivity. }
  apply nsteps_bounded in Hsteps as [Hwork _]. simpl in Hwork.
  rewrite work_replicate in Hwork.
  assert (Hstate : world s = w /\ c (fut s) = None).
  { inversion Hshape; subst; split; reflexivity. }
  assert (Hout : forall t, waiting_or_late t -> ~ in_critical_section t).
  { intros t [-> | ->]; simpl; tauto. }
  assert (Heach : forall i t, ts !! i = Some t ->
            waiting_or_late t \/ t = Holding \/ t = AtUnlock AlreadyConsumed).
  { intros i t Hi.
    inversion Hshape as [ts' Hall|ts' i0 t0 Hi0 Ht Hothers]; subst ts' s.
    - left. eauto.
    - destruct (decide (i = i0)) as [->|Hne].
      + rewrite Hi0 in Hi. inversion Hi; subst. right. exact Ht.
      + left. eauto. }
  destruct Hstate as [Hworld Hnil].
  split; [exact run_alone_is_Get|].
  split; [apply Get_nil; assumption|].
  split; [exact Hworld|]. split; [exact Hnil|]. split; [|split; [|split]].
  - intros i o [Hi|Hi];
      destruct (Heach _ _ Hi) as [[H|H]|[H|H]]; inversion H; reflexivity.
  - intros i j ti tj Hi Hj Hci Hcj.
    inversion Hshape as [ts' Hall|ts' i0 t0 Hi0 Ht Hothers]; subst ts' s.
    + destruct (Hout _ (Hall _ _ Hi) Hci).
    + destruct (decide (i = i0)) as [->|Hne];
        [|destruct (Hout _ (Hothers _ _ Hne Hi) Hci)].
      destruct (decide (j = i0)) as [->|Hne];
        [|destruct (Hout _ (Hothers _ _ Hne Hj) Hcj)].
      split; reflexivity.
  - destruct (decide (Forall is_done ts)) as [Hdone|Hnot]; [left; exact Hdone|right].
    apply not_Forall_Exists in Hnot; [|apply _].
    apply Exists_exists in Hnot as (t & Hin & Hnd).
    apply list_elem_of_lookup in Hin as [j Hj].
    inversion Hshape as [ts' Hall|ts' i0 t0 Hi0 Ht Hothers]; subst ts' s.
    + destruct (Hall _ _ Hj) as [-> | ->]; [|destruct Hnd; exact I].
      eexists. eapply step_thread; [exact Hj|reflexivity].
    + destruct Ht as [-> | ->];
        eexists; (eapply step_thread; [exact Hi0|reflexivity]).
  - lia.
Qed.

Lemma concurrent_Get_on_consumed_witness :
  m (consumed live_future) = false /\
  c (consumed live_future) = None /\
  nsteps step 6 (replicate 2 AtLock, example_late_state)
    (example_late_done, example_late_state) /\
  (forall s0, goroutine_is_Get s0) /\
  Get example_late_state = outcome_as AlreadyConsumed example_late_state /\
  world example_late_state = empty_world example_remote /\
  c (fut example_late_state) = None /\
  (forall i o,
     example_late_done !! i = Some (AtUnlock o) \/
     example_late_done !! i = Some (Done o) ->
     o = AlreadyConsumed) /\
  (forall i j ti tj,
     example_late_done !! i = Some ti -> example_late_done !! j = Some tj ->
     in_critical_section ti -> in_critical_section tj ->
     i = j /\ m (fut example_late_state) = true) /\
  (Forall is_done example_late_done \/
   exists cfg', step (example_late_done, example_late_state) cfg') /\
  6 <= 3 * 2.
Proof.
  assert (Hsteps : nsteps step 6 (replicate 2 AtLock, example_late_state)
                     (example_late_done, example_late_state)).
  { apply (run_schedule_nsteps [1; 1; 1; 0; 0; 0]). vm_compute. reflexivity. }
  split; [reflexivity|]. split; [reflexivity|]. split; [exact Hsteps|].
  exact (concurrent_Get_on_consumed 2 (consumed live_future)
           (empty_world example_remote) 6 example_late_done example_late_state
           eq_refl eq_refl Hsteps).
Defined.
